(** * docs/build-index.py: the swagger-ui [index.html] rewriter

    A shallow embedding of the build script and of the [parseQuery] function
    of the initializer it emits, with the properties of the transformation.

    - Python [str] values are sequences of Unicode code points, modelled as
      [list N]; [lit] turns a literal into such a sequence.
    - The [re] patterns of the script are values of [regex], searched by
      Brzozowski derivatives ([re_search]).
    - A BeautifulSoup document is a [PageElement] tree.  The tags returned
      by [find_all] are references into the tree: they are modelled as
      paths (child indices from the root), and the in-place mutations of
      the script as updates at a path.
    - Exceptions are values of [exn] carried by the [result] monad. *)

From Stdlib Require Import NArith String Ascii List Lia.
From stdpp Require Import base option list sorting gmap.

#[local] Set Warnings "-register-all".
#[local] Open Scope N_scope.

(* ================================================================== *)
(** ** Strings *)

Abbreviation str := (list N).

(** The code points of an ASCII literal. *)
Definition lit (s : string) : str :=
  (λ a, N_of_ascii a) <$> list_ascii_of_string s.

(** [s.split(sep)] for a separator of one character. *)
Fixpoint split (sep : N) (s : str) : list str :=
  match s with
  | [] => [[]]
  | c :: s' =>
      if c =? sep then [] :: split sep s'
      else match split sep s' with
           | w :: ws => (c :: w) :: ws
           | [] => [[c]]
           end
  end.

(** [sep.join(parts)]. *)
Fixpoint join (sep : str) (parts : list str) : str :=
  match parts with
  | [] => []
  | [w] => w
  | w :: ws => w ++ sep ++ join sep ws
  end.

(** Python's [str.isspace] on one code point: the class [\s] of a [str]
    pattern. *)
Definition isspace (c : N) : bool :=
  ((9 <=? c) && (c <=? 13)) || ((28 <=? c) && (c <=? 32))
  || (c =? 133) || (c =? 160) || (c =? 5760)
  || ((8192 <=? c) && (c <=? 8202))
  || (c =? 8232) || (c =? 8233) || (c =? 8239) || (c =? 8287)
  || (c =? 12288).

(* ================================================================== *)
(** ** Exceptions *)

Inductive exn :=
| AssertionError
| AttributeError
| KeyError
| IndexError
| FileNotFoundError.

Inductive result (A : Type) :=
| Ok (a : A)
| Raise (e : exn).
Arguments Ok {A} a.
Arguments Raise {A} e.

#[global] Instance result_ret : MRet result := λ A a, Ok a.
#[global] Instance result_bind : MBind result := λ A B k m,
  match m with
  | Ok a => k a
  | Raise e => Raise e
  end.

(* ================================================================== *)
(** ** Regular expressions: the fragment of [re] the script uses *)

Inductive regex :=
| Void                         (* matches nothing *)
| Eps                          (* the empty pattern *)
| Bol                          (* ^ *)
| Chr (c : N)                  (* a literal character *)
| Space                        (* \s *)
| Cat (r1 r2 : regex)
| Alt (r1 r2 : regex)
| Star (r : regex).

(** The pattern of a literal string. *)
Fixpoint Lit (s : str) : regex :=
  match s with
  | [] => Eps
  | c :: s' => Cat (Chr c) (Lit s')
  end.

(** [nullable b r]: [r] matches the empty string; [b] tells whether the
    position is the start of the subject. *)
Fixpoint nullable (b : bool) (r : regex) : bool :=
  match r with
  | Void => false
  | Eps => true
  | Bol => b
  | Chr _ => false
  | Space => false
  | Cat r1 r2 => nullable b r1 && nullable b r2
  | Alt r1 r2 => nullable b r1 || nullable b r2
  | Star _ => true
  end.

(** The derivative of [r] by the character [c] read at a position that is
    the start of the subject iff [b]. *)
Fixpoint deriv (b : bool) (c : N) (r : regex) : regex :=
  match r with
  | Void | Eps | Bol => Void
  | Chr c' => if c =? c' then Eps else Void
  | Space => if isspace c then Eps else Void
  | Cat r1 r2 =>
      Alt (Cat (deriv b c r1) r2)
          (if nullable b r1 then deriv b c r2 else Void)
  | Alt r1 r2 => Alt (deriv b c r1) (deriv b c r2)
  | Star r1 => Cat (deriv b c r1) (Star r1)
  end.

(** [pattern.match(s)] as a truth value: some prefix of [s] matches. *)
Fixpoint re_match_at (b : bool) (r : regex) (s : str) : bool :=
  nullable b r ||
  match s with
  | [] => false
  | c :: s' => re_match_at false (deriv b c r) s'
  end.

Fixpoint re_search_from (b : bool) (r : regex) (s : str) : bool :=
  re_match_at b r s ||
  match s with
  | [] => false
  | _ :: s' => re_search_from false r s'
  end.

(** [re.search(pattern, s)] as a truth value. *)
Definition re_search (r : regex) (s : str) : bool := re_search_from true r s.

(* ================================================================== *)
(** ** rewrite_link *)

Definition rewrite_link (link_str : str) : result str :=
  let link_parts := split 47 link_str in
  if bool_decide (link_parts !! 0%nat = Some (lit "."))
  then Ok (join (lit "/")
             ([lit "."; lit "node_modules"; lit "swagger-ui-dist"]
                ++ drop 1 link_parts))
  else Raise AssertionError.

(* ================================================================== *)
(** ** The BeautifulSoup tree *)

(** A node of the parsed document.  [Comment] stands for the string classes
    that [get_text] leaves out (comments, the doctype, declarations). *)
Inductive PageElement :=
| Tag (name : str) (attrs : gmap str str) (contents : list PageElement)
| NavigableString (s : str)
| Comment (s : str).

Definition is_tag (e : PageElement) : bool :=
  match e with Tag _ _ _ => true | _ => false end.

Definition tag_name (e : PageElement) : option str :=
  match e with Tag n _ _ => Some n | _ => None end.

(** A reference to a node: the child indices that lead to it from the
    root of the document. *)
Abbreviation path := (list nat).

(** The node a reference designates. *)
Fixpoint get (p : path) (e : PageElement) : option PageElement :=
  match p with
  | [] => Some e
  | i :: p' =>
      match e with
      | Tag _ _ cs => cs !! i ≫= get p'
      | _ => None
      end
  end.

(** In-place mutation of the node a reference designates. *)
Fixpoint update (p : path) (f : PageElement → PageElement)
    (e : PageElement) : PageElement :=
  match p with
  | [] => f e
  | i :: p' =>
      match e with
      | Tag n a cs => Tag n a (alter (update p' f) i cs)
      | _ => e
      end
  end.

(** [tag.get_text()]: the text nodes below [tag], concatenated in document
    order. *)
Fixpoint get_text (e : PageElement) : str :=
  match e with
  | Tag _ _ cs => concat (map get_text cs)
  | NavigableString s => s
  | Comment _ => []
  end.

(** [tag.has_attr(key)]. *)
Definition has_attr (key : str) (e : PageElement) : bool :=
  match e with
  | Tag _ a _ => bool_decide (is_Some (a !! key))
  | _ => false
  end.

(** [tag[key] = value]. *)
Definition set_attr (key value : str) (e : PageElement) : PageElement :=
  match e with
  | Tag n a cs => Tag n (<[key := value]> a) cs
  | _ => e
  end.

(** [tag.string = value]: the children are dropped and one text node is
    appended. *)
Definition set_string (value : str) (e : PageElement) : PageElement :=
  match e with
  | Tag n a _ => Tag n a [NavigableString value]
  | _ => e
  end.

(** [tag[key]] of the tag a reference designates. *)
Definition attr_at (p : path) (key : str) (soup : PageElement) : option str :=
  match get p soup with
  | Some (Tag _ a _) => a !! key
  | _ => None
  end.

Section find.
Variable matches : PageElement → bool.

(** The matching tags among the trees [cs], numbered from [i], given the
    search [F] of one tree. *)
Definition find_children (F : PageElement → list path) :
    nat → list PageElement → list path :=
  fix go (i : nat) (cs : list PageElement) : list path :=
    match cs with
    | [] => []
    | c :: cs' => ((λ p, i :: p) <$> F c) ++ go (S i) cs'
    end.

(** The matching tags among [e] and its descendants, in document order. *)
Fixpoint find_self (e : PageElement) : list path :=
  match e with
  | Tag _ _ cs =>
      (if matches e then [[]] else []) ++ find_children find_self 0 cs
  | _ => []
  end.

(** [e.find_all(...)]: the matching tags among the descendants of [e]. *)
Definition find_all (e : PageElement) : list path :=
  match e with
  | Tag _ _ cs => find_children find_self 0 cs
  | _ => []
  end.

(** [e.find(...)]: the first of them, or [None]. *)
Definition find (e : PageElement) : option path := head (find_all e).
End find.

(** The filter of [find_all(name)]. *)
Definition named (name : str) (e : PageElement) : bool :=
  bool_decide (tag_name e = Some name).

(** The filter of [find_all(name, attr=pattern)]: a tag of that name whose
    attribute is present and matches. *)
Definition named_with (name attr : str) (pattern : regex)
    (e : PageElement) : bool :=
  match e with
  | Tag n a _ =>
      bool_decide (n = name) &&
      match a !! attr with
      | Some v => re_search pattern v
      | None => false
      end
  | _ => false
  end.

(* ================================================================== *)
(** ** The script *)

(** [r'^\./'] *)
Definition relative_re : regex := Cat Bol (Cat (Chr 46) (Chr 47)).

(** [r'window\.onload\s*='] *)
Definition onload_re : regex :=
  Cat (Lit (lit "window.onload")) (Cat (Star Space) (Chr 61)).

(** [r'SwaggerUIBundle\s*\('] *)
Definition bundle_re : regex :=
  Cat (Lit (lit "SwaggerUIBundle")) (Cat (Star Space) (Chr 40)).

Definition title_text : str := lit "Encircle Public API".

(** Line 53, [soup.head.title.string = 'Encircle Public API'].  [soup.head]
    is [soup.find('head')] and [.title] is [find('title')] on the result;
    [head_title] is the reference they yield, [None] when either is [None],
    and the attribute access on [None] raises [AttributeError]. *)
Definition head_title (soup : PageElement) : option path :=
  hp ← find (named (lit "head")) soup;
  tp ← get hp soup ≫= find (named (lit "title"));
  Some (hp ++ tp).

Definition set_title (soup : PageElement) : result PageElement :=
  match head_title soup with
  | None => Raise AttributeError
  | Some t => Ok (update t (set_string title_text) soup)
  end.

(** [for tag in tags: tag[attr] = rewrite_link(tag[attr])]. *)
Fixpoint rewrite_each (attr : str) (tags : list path)
    (soup : PageElement) : result PageElement :=
  match tags with
  | [] => Ok soup
  | p :: tags' =>
      match attr_at p attr soup with
      | None => Raise KeyError
      | Some v =>
          v' ← rewrite_link v;
          rewrite_each attr tags' (update p (set_attr attr v') soup)
      end
  end.

(** Lines 60-69: the two loops over the relative links and scripts. *)
Definition rewrite_links (soup : PageElement) : result PageElement :=
  soup ← rewrite_each (lit "href")
           (find_all (named_with (lit "link") (lit "href") relative_re) soup)
           soup;
  rewrite_each (lit "src")
    (find_all (named_with (lit "script") (lit "src") relative_re) soup)
    soup.

Definition is_initializer_script (tag : PageElement) : bool :=
  if negb (bool_decide (tag_name tag = Some (lit "script"))) then false
  else if has_attr (lit "src") tag then false
  else
    let text := get_text tag in
    if negb (re_search onload_re text) then false
    else if negb (re_search bundle_re text) then false
    else true.

(** The text assigned to [init_scripts[0].string] (lines 102-152); the code
    point 34 is the double quote. *)
Definition initializer_template : str :=
  lit "
window.onload = function() {
    var parseQuery = function(queryString) {
        var query = {};
        var pairs = (queryString.charAt(0) === '?' ? queryString.substr(1) : queryString).split('&');
        for (var i = 0; i < pairs.length; ++i) {
            var pair = pairs[i].split('=');
            query[decodeURIComponent(pair[0])] = decodeURIComponent(pair[1] || '');
        }
        return query;
    };

    var query = parseQuery(document.location.search);

    var urls = [];

    if (document.location.protocol == 'file:') {
        urls.push({
            url: 'http://localhost:8890/openapi_v3.json',
            name: 'localhost:8890',
        });
    }

    if (query.encircleUrl != null) {
        urls.push({
            url: query.encircleUrl,
            name: query.encircleUrl,
        });
    }

    urls.push({
        url: 'https://api.encircleapp.com/openapi_v3.json',
        name: 'api.encircleapp.com',
    });

    var ui = SwaggerUIBundle({
        urls: urls,
        dom_id: '#swagger-ui',
        defaultModelRendering: 'model',
        validatorUrl: null,
        presets: [
            SwaggerUIBundle.presets.apis,
            SwaggerUIStandalonePreset
        ],
        plugins: [
            SwaggerUIBundle.plugins.DownloadUrl
        ],
        layout: " ++ [34] ++
  lit "StandaloneLayout" ++ [34] ++
  lit "
    });
};
".

(** Lines 53-152: the mutations of the parsed document. *)
Definition transform (soup : PageElement) : result PageElement :=
  soup ← set_title soup;
  soup ← rewrite_links soup;
  let init_scripts := find_all is_initializer_script soup in
  if negb (bool_decide (length init_scripts = 1%nat)) then Raise AssertionError
  else
    match init_scripts !! 0%nat with
    | None => Raise IndexError
    | Some p => Ok (update p (set_string initializer_template) soup)
    end.

(** Files are named by their path below the directory of the script. *)
Definition input_path : list str :=
  [lit "node_modules"; lit "swagger-ui-dist"; lit "index.html"].
Definition output_path : list str := [lit "index.html"].

Section main.
(** [BeautifulSoup(fp, 'html5lib')] on the text of the file, and
    [soup.prettify()]: the parser and the serializer of the library. *)
Variable BeautifulSoup : str → PageElement.
Variable prettify : PageElement → str.

(** One run of the script on the files [fs]: the files it leaves and the
    exception that ended it, if any. *)
Definition main (fs : gmap (list str) str) :
    gmap (list str) str * option exn :=
  match fs !! input_path with
  | None => (fs, Some FileNotFoundError)
  | Some text =>
      match transform (BeautifulSoup text) with
      | Raise e => (fs, Some e)
      | Ok soup => (<[output_path := prettify soup]> fs, None)
      end
  end.
End main.

(* ================================================================== *)
(** ** The emitted initializer: [parseQuery]

    A JavaScript string is a sequence of UTF-16 code units, again a
    [list N].  An [option] result is [None] when the call throws
    ([URIError]). *)

Definition hex_digit (c : N) : option N :=
  if (48 <=? c) && (c <=? 57) then Some (c - 48)
  else if (65 <=? c) && (c <=? 70) then Some (c - 55)
  else if (97 <=? c) && (c <=? 102) then Some (c - 87)
  else None.

(** The first octet of a UTF-8 sequence of more than one octet: the number
    of octets that follow, the bits it carries and the least code point
    such a sequence may encode. *)
Definition utf8_lead (b : N) : option (nat * N * N) :=
  if b <? 192 then None
  else if b <? 224 then Some (1%nat, b - 192, 128)
  else if b <? 240 then Some (2%nat, b - 224, 2048)
  else if b <? 248 then Some (3%nat, b - 240, 65536)
  else None.

Definition utf16_encode (v : N) : str :=
  if v <? 65536 then [v]
  else [55296 + (v - 65536) / 1024; 56320 + (v - 65536) mod 1024].

(** [Decode] of ECMA-262 with no reserved set.  [pending] is [Some (n, v,
    lo)] inside a UTF-8 sequence: [n] octets are still expected, [v] holds
    the bits read so far and [lo] is the least value the sequence may
    encode. *)
Fixpoint decode (pending : option (nat * N * N)) (s : str) : option str :=
  match s with
  | [] => match pending with None => Some [] | Some _ => None end
  | c :: s1 =>
      if c =? 37 then
        match s1 with
        | h1 :: h2 :: s' =>
            a ← hex_digit h1;
            b ← hex_digit h2;
            let octet := 16 * a + b in
            match pending with
            | None =>
                if octet <? 128 then (λ r, octet :: r) <$> decode None s'
                else st ← utf8_lead octet; decode (Some st) s'
            | Some (n, v, lo) =>
                if (128 <=? octet) && (octet <? 192) then
                  let v' := 64 * v + (octet - 128) in
                  match n with
                  | 1%nat =>
                      if (lo <=? v') && (v' <=? 1114111)
                         && negb ((55296 <=? v') && (v' <=? 57343))
                      then (λ r, utf16_encode v' ++ r) <$> decode None s'
                      else None
                  | S n' => decode (Some (n', v', lo)) s'
                  | O => None
                  end
                else None
            end
        | _ => None
        end
      else
        match pending with
        | None => (λ r, c :: r) <$> decode None s1
        | Some _ => None
        end
  end.

Definition decodeURIComponent (s : str) : option str := decode None s.

(** [query[key] = value] on an object created by [{}], for a string
    [value]: [__proto__] is the accessor inherited from [Object.prototype],
    whose setter ignores a value that is not an object; any other key
    becomes an own property. *)
Definition js_set (key value : str) (query : gmap str str) : gmap str str :=
  if bool_decide (key = lit "__proto__") then query
  else <[key := value]> query.

(** [x || ''] for [x] a string or [undefined]. *)
Definition or_empty (x : option str) : str :=
  match x with
  | Some (c :: s) => c :: s
  | _ => []
  end.

(** The body of the [for] loop of [parseQuery], for the remaining
    [pairs]. *)
Fixpoint parseQuery_loop (pairs : list str) (query : gmap str str) :
    option (gmap str str) :=
  match pairs with
  | [] => Some query
  | p :: pairs' =>
      let pair := split 61 p in
      key ← decodeURIComponent (default (lit "undefined") (pair !! 0%nat));
      value ← decodeURIComponent (or_empty (pair !! 1%nat));
      parseQuery_loop pairs' (js_set key value query)
  end.

(** The [&]-separated pairs of a query string. *)
Definition query_pairs (queryString : str) : list str :=
  split 38 (if bool_decide (head queryString = Some 63)
            then drop 1 queryString else queryString).

Definition parseQuery (queryString : str) : option (gmap str str) :=
  parseQuery_loop (query_pairs queryString) ∅.

(** *** The rest of the [window.onload] handler: the list of sources *)

(** An entry [{url: ..., name: ...}] of [urls]. *)
Record endpoint := { url : str; name : str }.

Definition local_endpoint : endpoint :=
  {| url := lit "http://localhost:8890/openapi_v3.json";
     name := lit "localhost:8890" |}.

Definition production_endpoint : endpoint :=
  {| url := lit "https://api.encircleapp.com/openapi_v3.json";
     name := lit "api.encircleapp.com" |}.

(** The three [urls.push] of the handler, for [document.location.protocol]
    and the parsed query.  [query.encircleUrl] is the own property of that
    name, [undefined] when there is none, and [undefined != null] is
    false. *)
Definition build_urls (protocol : str) (query : gmap str str) :
    list endpoint :=
  let urls := [] in
  let urls :=
    if bool_decide (protocol = lit "file:") then urls ++ [local_endpoint]
    else urls in
  let urls :=
    match query !! lit "encircleUrl" with
    | Some v => urls ++ [{| url := v; name := v |}]
    | None => urls
    end in
  urls ++ [production_endpoint].

(** The [urls] the handler passes to [SwaggerUIBundle], for the protocol
    and the query string of the page; [None] when [parseQuery] throws, which
    ends the handler. *)
Definition onload (protocol search : str) : option (list endpoint) :=
  query ← parseQuery search;
  Some (build_urls protocol query).

(** *** What the specification says of a pair, for comparison *)

(** The text of a pair before its first [=]. *)
Fixpoint key_text (pair : str) : str :=
  match pair with
  | [] => []
  | c :: s => if c =? 61 then [] else c :: key_text s
  end.

(** The text of a pair after its first [=]. *)
Fixpoint after_first_eq (pair : str) : str :=
  match pair with
  | [] => []
  | c :: s => if c =? 61 then s else after_first_eq s
  end.

(** The text between the first and the second [=] of a pair (up to the end
    when there is no second one, empty when there is no first one). *)
Definition second_segment (pair : str) : str := key_text (after_first_eq pair).

(** The text after the last [=] of a pair: the value of the last
    [=]-split. *)
Definition last_segment (pair : str) : str := default [] (last (split 61 pair)).

(** The number of [=] in a pair. *)
Definition count_eq (pair : str) : nat :=
  length (filter (λ c, c = 61) pair).

(* ================================================================== *)
(** ** Notions used by the statements *)

(** What a pattern matches: [re_matches b r s] when [r] matches exactly
    [s], read from a position that is the start of the subject iff [b]. *)
Definition at_start (b : bool) (s : str) : bool :=
  b && match s with [] => true | _ => false end.

Inductive re_matches : bool → regex → str → Prop :=
| M_Eps b : re_matches b Eps []
| M_Bol : re_matches true Bol []
| M_Chr b c : re_matches b (Chr c) [c]
| M_Space b c : isspace c = true → re_matches b Space [c]
| M_Cat b r1 r2 s1 s2 :
    re_matches b r1 s1 → re_matches (at_start b s1) r2 s2 →
    re_matches b (Cat r1 r2) (s1 ++ s2)
| M_Alt_l b r1 r2 s : re_matches b r1 s → re_matches b (Alt r1 r2) s
| M_Alt_r b r1 r2 s : re_matches b r2 s → re_matches b (Alt r1 r2) s
| M_Star_nil b r : re_matches b (Star r) []
| M_Star_cons b r c s1 s2 :
    re_matches b r (c :: s1) → re_matches false (Star r) s2 →
    re_matches b (Star r) (c :: s1 ++ s2).

(** How a reference [p] lies with respect to a reference [t]. *)
Inductive path_relation :=
| Above (r : path)      (* [t = p ++ r]: [p] designates [t] or an ancestor *)
| Below (r : path)      (* [p = t ++ r], [r] not empty: a descendant *)
| Apart.                (* neither: the subtrees are disjoint *)

Fixpoint path_rel (p t : path) : path_relation :=
  match p, t with
  | [], _ => Above t
  | _ :: _, [] => Below p
  | i :: p', j :: t' => if bool_decide (i = j) then path_rel p' t' else Apart
  end.

(** The tree whose tags all had their attributes changed by [G]. *)
Fixpoint map_tags (G : str → gmap str str → gmap str str)
    (e : PageElement) : PageElement :=
  match e with
  | Tag n a cs => Tag n (G n a) (map (map_tags G) cs)
  | _ => e
  end.

(** The same for the descendants of [e] only. *)
Definition map_descendants (G : str → gmap str str → gmap str str)
    (e : PageElement) : PageElement :=
  match e with
  | Tag n a cs => Tag n a (map (map_tags G) cs)
  | _ => e
  end.

(** What the two loops do to the attributes of a tag named [n]. *)
Definition relative (v : option str) : bool :=
  match v with
  | Some (c1 :: c2 :: _) => (c1 =? 46) && (c2 =? 47)
  | _ => false
  end.

Definition rewritten (name attr : str) (n : str) (a : gmap str str) :
    gmap str str :=
  match a !! attr with
  | Some v =>
      if bool_decide (n = name) && relative (Some v)
      then <[attr := lit "./node_modules/swagger-ui-dist/" ++ drop 2 v]> a
      else a
  | None => a
  end.

(** What the two loops together make of the attributes of a tag. *)
Definition both_rewritten (n : str) (a : gmap str str) : gmap str str :=
  rewritten (lit "script") (lit "src") n
    (rewritten (lit "link") (lit "href") n a).

(** The document when line 99 looks for the initializer: the title at [t]
    was set and the two loops have run. *)
Definition before_initializer (t : path) (soup : PageElement) : PageElement :=
  map_descendants (rewritten (lit "script") (lit "src"))
    (map_descendants (rewritten (lit "link") (lit "href"))
       (update t (set_string title_text) soup)).

(** The first [/]-separated segment of a value is exactly [.]: the
    assertion of [rewrite_link]. *)
Definition dot_first (s : str) : bool :=
  match s with
  | [] => false
  | c :: tail =>
      (c =? 46) && match tail with [] => true | d :: _ => d =? 47 end
  end.

(** Document order on references: an element comes before its
    descendants, and before the elements that follow it. *)
Fixpoint path_le (p q : path) : bool :=
  match p, q with
  | [], _ => true
  | _ :: _, [] => false
  | i :: p', j :: q' => (i <? j)%nat || ((i =? j)%nat && path_le p' q')
  end.

Definition document_order : relation path := λ p q, path_le p q = true.

(** The names of the elements whose content the HTML parser reads as text.
    [raw_text_elements e] says that no [script] and no [title] of [e] has
    an element as a child.  It holds of the documents in which these
    elements are HTML ones; inside an inline SVG or MathML drawing the
    parser reads the content of a [script] or a [title] as markup, so the
    condition is a hypothesis of the statements that need it, not a
    property of every parsed document. *)
Definition raw_text (n : str) : bool :=
  bool_decide (n = lit "script") || bool_decide (n = lit "title").

Fixpoint raw_text_elements (e : PageElement) : bool :=
  match e with
  | Tag n _ cs =>
      (if raw_text n then forallb (λ c, negb (is_tag c)) cs else true)
      && forallb raw_text_elements cs
  | _ => true
  end.

(* ================================================================== *)
(** ** Sample documents *)

Definition attrs_of (l : list (string * string)) : gmap str str :=
  list_to_map ((λ kv, (lit kv.1, lit kv.2)) <$> l).

Definition document (cs : list PageElement) : PageElement :=
  Tag (lit "[document]") ∅ cs.

Definition sample_head : PageElement :=
  Tag (lit "head") ∅
    [Tag (lit "title") ∅ [NavigableString (lit "Swagger UI")];
     Tag (lit "link")
       (attrs_of [("rel", "stylesheet"); ("href", "./swagger-ui.css")]%string)
       [];
     Tag (lit "link")
       (attrs_of [("rel", "icon"); ("href", "https://example.org/i.png")]%string)
       []].

Definition sample_init_script : PageElement :=
  Tag (lit "script") ∅
    [NavigableString
       (lit "window.onload = function() { window.ui = SwaggerUIBundle({}) }")].

Definition sample_other_script : PageElement :=
  Tag (lit "script") ∅ [NavigableString (lit "console.log(1)")].

Definition sample_body (scripts : list PageElement) : PageElement :=
  Tag (lit "body") ∅
    (Tag (lit "div") (attrs_of [("id", "swagger-ui")]%string) []
     :: Tag (lit "script")
          (attrs_of [("src", "./swagger-ui-bundle.js")]%string)
          [NavigableString (lit " ")]
     :: scripts).

(** The shape of the upstream file: a title, relative and absolute links,
    an external script, an inline script and the initializer. *)
Definition sample_soup : PageElement :=
  document
    [Comment (lit "html");
     Tag (lit "html") ∅
       [sample_head; sample_body [sample_other_script; sample_init_script]]].

(** The same without a title. *)
Definition untitled_soup : PageElement :=
  document
    [Tag (lit "html") ∅
       [Tag (lit "head") ∅ []; sample_body [sample_init_script]]].



Definition sample_text : str :=
  lit "<!-- HTML for static distribution bundle build -->".

(** The files of a checkout: the upstream file and an [index.html] left
    by an earlier run. *)
Definition sample_files : gmap (list str) str :=
  <[output_path := lit "<html>old</html>"]> {[input_path := sample_text]}.

(** A parser that yields [soup] for the input file. *)
Definition parser_yielding (soup : PageElement) : str → PageElement :=
  λ _, soup.


(** A document whose initializer is the script of an inline drawing and
    holds, next to its text, an element with a script of its own. *)
Definition nested_script_soup : PageElement :=
  document
    [Tag (lit "html") ∅
       [sample_head;
        Tag (lit "body") ∅
          [Tag (lit "svg") ∅
             [Tag (lit "script") ∅
                [NavigableString
                   (lit "window.onload = function() { SwaggerUIBundle({}) }");
                 Tag (lit "desc") ∅ [sample_other_script]]]]]].

(** A document with a second title, in an inline drawing of the body. *)
Definition two_titles_soup : PageElement :=
  document
    [Tag (lit "html") ∅
       [sample_head;
        Tag (lit "body") ∅
          [Tag (lit "svg") ∅
             [Tag (lit "title") ∅ [NavigableString (lit "Logo")]];
           sample_init_script]]].

(* ================================================================== *)
(** * Properties *)

(** ** Strings *)

Lemma split_nonempty sep s : split sep s ≠ [].
Proof.
  destruct s as [|c s]; simpl; [done|].
  destruct (c =? sep); [done|]. by destruct (split sep s).
Qed.

Lemma join_cons sep w ws :
  ws ≠ [] → join sep (w :: ws) = w ++ sep ++ join sep ws.
Proof. by destruct ws. Qed.

Lemma join_split sep s : join [sep] (split sep s) = s.
Proof.
  induction s as [|c s IH]; simpl; [done|].
  destruct (N.eqb_spec c sep) as [->|Hne].
  - rewrite join_cons by apply split_nonempty. simpl. by rewrite IH.
  - pose proof (split_nonempty sep s) as Hs.
    destruct (split sep s) as [|w ws]; [done|].
    destruct ws as [|w' ws]; simpl in *; by rewrite <- IH.
Qed.

Lemma split_relative rest :
  split 47 (46 :: 47 :: rest) = [46] :: split 47 rest.
Proof. reflexivity. Qed.

Lemma rewrite_link_relative rest :
  rewrite_link (46 :: 47 :: rest)
  = Ok (lit "./node_modules/swagger-ui-dist/" ++ rest).
Proof.
  unfold rewrite_link. rewrite split_relative.
  change (bool_decide (_ = _)) with true. cbv iota.
  change (drop 1 ([46] :: split 47 rest)) with (split 47 rest).
  change ([lit "."; lit "node_modules"; lit "swagger-ui-dist"] ++ ?l)
    with (lit "." :: lit "node_modules" :: lit "swagger-ui-dist" :: l).
  rewrite !join_cons by (apply split_nonempty || done).
  change (lit "/") with [47]. rewrite join_split. reflexivity.
Qed.

(** ** Regular expressions: the search agrees with what patterns match *)

Lemma at_start_nil b : at_start b [] = b.
Proof. unfold at_start. by rewrite andb_true_r. Qed.

Lemma at_start_cons b c s : at_start b (c :: s) = false.
Proof. unfold at_start. by rewrite andb_false_r. Qed.

Lemma re_matches_Cat_inv b r1 r2 s :
  re_matches b (Cat r1 r2) s →
  ∃ s1 s2, s = s1 ++ s2 ∧ re_matches b r1 s1
           ∧ re_matches (at_start b s1) r2 s2.
Proof. inversion 1; subst; eauto. Qed.

Lemma re_matches_Alt_inv b r1 r2 s :
  re_matches b (Alt r1 r2) s → re_matches b r1 s ∨ re_matches b r2 s.
Proof. inversion 1; subst; eauto. Qed.

Lemma re_matches_Star_inv b r s :
  re_matches b (Star r) s →
  s = [] ∨ ∃ c s1 s2, s = c :: s1 ++ s2 ∧ re_matches b r (c :: s1)
                      ∧ re_matches false (Star r) s2.
Proof. inversion 1; subst; eauto 8. Qed.

Lemma re_matches_Chr_inv b c s : re_matches b (Chr c) s → s = [c].
Proof. by inversion 1. Qed.

Lemma re_matches_Space_inv b s :
  re_matches b Space s → ∃ c, s = [c] ∧ isspace c = true.
Proof. inversion 1; subst; eauto. Qed.

Lemma re_matches_Eps_inv b s : re_matches b Eps s → s = [].
Proof. by inversion 1. Qed.

Lemma re_matches_Bol_inv b s : re_matches b Bol s → s = [] ∧ b = true.
Proof. by inversion 1. Qed.

Lemma re_matches_Void_inv b s : ¬ re_matches b Void s.
Proof. inversion 1. Qed.

Lemma nullable_spec r : ∀ b, nullable b r = true ↔ re_matches b r [].
Proof.
  induction r as [| | |c| |r1 IH1 r2 IH2|r1 IH1 r2 IH2|r IH]; intros b; simpl.
  - split; [done|]. by intros ?%re_matches_Void_inv.
  - split; [constructor|done].
  - split; [intros ->; constructor|]. by intros [_ ->]%re_matches_Bol_inv.
  - split; [done|]. by intros ?%re_matches_Chr_inv.
  - split; [done|]. by intros (? & ? & _)%re_matches_Space_inv.
  - rewrite andb_true_iff, IH1, IH2. split.
    + intros [H1 H2]. change (@nil N) with (@nil N ++ []).
      constructor; [done|]. by rewrite at_start_nil.
    + intros (s1 & s2 & Hs & H1 & H2)%re_matches_Cat_inv.
      symmetry in Hs. apply app_eq_nil in Hs as [-> ->].
      by rewrite at_start_nil in H2.
  - rewrite orb_true_iff, IH1, IH2. split.
    + intros [?|?]; [by apply M_Alt_l|by apply M_Alt_r].
    + by intros ?%re_matches_Alt_inv.
  - split; [constructor|done].
Qed.

Lemma deriv_spec r : ∀ b c s,
  re_matches false (deriv b c r) s ↔ re_matches b r (c :: s).
Proof.
  induction r as [| | |c'| |r1 IH1 r2 IH2|r1 IH1 r2 IH2|r IH];
    intros b c s; simpl.
  - split; by intros ?%re_matches_Void_inv.
  - split; [by intros ?%re_matches_Void_inv|by intros ?%re_matches_Eps_inv].
  - split; [by intros ?%re_matches_Void_inv|by intros [? _]%re_matches_Bol_inv].
  - destruct (N.eqb_spec c c') as [->|Hne]; split.
    + intros ->%re_matches_Eps_inv. constructor.
    + intros [= ->]%re_matches_Chr_inv. constructor.
    + by intros ?%re_matches_Void_inv.
    + by intros [= ? ?]%re_matches_Chr_inv.
  - destruct (isspace c) eqn:Hc; split.
    + intros ->%re_matches_Eps_inv. by constructor.
    + intros (? & [= <- ->] & _)%re_matches_Space_inv. constructor.
    + by intros ?%re_matches_Void_inv.
    + intros (? & [= <- ->] & ?)%re_matches_Space_inv. congruence.
  - split.
    + intros [Hl|Hr]%re_matches_Alt_inv.
      * apply re_matches_Cat_inv in Hl as (s1 & s2 & -> & H1 & H2).
        apply IH1 in H1. change (c :: s1 ++ s2) with ((c :: s1) ++ s2).
        constructor; [done|]. by rewrite at_start_cons.
      * destruct (nullable b r1) eqn:Hn;
          [|by apply re_matches_Void_inv in Hr].
        apply nullable_spec in Hn. apply IH2 in Hr.
        change (c :: s) with ([] ++ c :: s).
        constructor; [done|]. by rewrite at_start_nil.
    + intros (s1 & s2 & Hs & H1 & H2)%re_matches_Cat_inv.
      destruct s1 as [|c1 s1]; simpl in Hs; subst.
      * rewrite at_start_nil in H2. apply M_Alt_r.
        apply nullable_spec in H1. rewrite H1. by apply IH2.
      * injection Hs as -> ->. rewrite at_start_cons in H2.
        apply M_Alt_l. constructor; [by apply IH1|done].
  - split.
    + intros [?|?]%re_matches_Alt_inv;
        [apply M_Alt_l; by apply IH1|apply M_Alt_r; by apply IH2].
    + intros [?|?]%re_matches_Alt_inv;
        [apply M_Alt_l; by apply IH1|apply M_Alt_r; by apply IH2].
  - split.
    + intros (s1 & s2 & -> & H1 & H2)%re_matches_Cat_inv.
      apply IH in H1. by constructor.
    + intros [?|(c1 & s1 & s2 & [= <- ->] & H1 & H2)]%re_matches_Star_inv;
        [done|].
      constructor; [by apply IH|done].
Qed.

Lemma re_match_at_spec s : ∀ b r,
  re_match_at b r s = true ↔ ∃ s1 s2, s = s1 ++ s2 ∧ re_matches b r s1.
Proof.
  induction s as [|c s IH]; intros b r; simpl.
  - rewrite orb_false_r, nullable_spec. split.
    + intros H. by exists [], [].
    + intros (s1 & s2 & Hs & H). symmetry in Hs.
      apply app_eq_nil in Hs as [-> ->]. done.
  - rewrite orb_true_iff, nullable_spec, IH. split.
    + intros [H|(s1 & s2 & -> & H)].
      * by exists [], (c :: s).
      * exists (c :: s1), s2. split; [done|]. by apply deriv_spec.
    + intros (s1 & s2 & Hs & H). destruct s1 as [|c1 s1]; [by left|].
      injection Hs as <- ->. right. exists s1, s2. split; [done|].
      by apply deriv_spec.
Qed.

Lemma re_search_from_spec s : ∀ b r,
  re_search_from b r s = true ↔
  ∃ pre mid post, s = pre ++ mid ++ post ∧ re_matches (at_start b pre) r mid.
Proof.
  induction s as [|c s IH]; intros b r; cbn [re_search_from].
  - rewrite orb_false_r, re_match_at_spec. split.
    + intros (s1 & s2 & Hs & H). exists [], s1, s2.
      by rewrite at_start_nil.
    + intros (pre & mid & post & Hs & H). symmetry in Hs.
      apply app_eq_nil in Hs as [-> Hs]. apply app_eq_nil in Hs as [-> ->].
      rewrite at_start_nil in H. by exists [], [].
  - rewrite orb_true_iff, re_match_at_spec, IH. split.
    + intros [(s1 & s2 & Hs & H)|(pre & mid & post & -> & H)].
      * exists [], s1, s2. by rewrite at_start_nil.
      * exists (c :: pre), mid, post. split; [done|].
        rewrite at_start_cons. destruct pre; by rewrite ?at_start_cons in H.
    + intros (pre & mid & post & Hs & H). destruct pre as [|c1 pre].
      * left. rewrite at_start_nil in H. by exists mid, post.
      * injection Hs as <- ->. right. exists pre, mid, post.
        split; [done|]. rewrite at_start_cons in H.
        destruct pre; by rewrite ?at_start_cons.
Qed.

(** [re.search] finds a match iff the pattern matches a substring, [^]
    holding at the start of the subject only. *)
Lemma re_search_spec r s :
  re_search r s = true ↔
  ∃ pre mid post, s = pre ++ mid ++ post ∧ re_matches (at_start true pre) r mid.
Proof. apply re_search_from_spec. Qed.

Lemma re_matches_Lit l : ∀ b s, re_matches b (Lit l) s ↔ s = l.
Proof.
  induction l as [|c l IH]; intros b s; simpl.
  - split; [by intros ?%re_matches_Eps_inv|intros ->; constructor].
  - split.
    + intros (s1 & s2 & -> & ->%re_matches_Chr_inv & H2)%re_matches_Cat_inv.
      apply IH in H2. by subst.
    + intros ->. change (c :: l) with ([c] ++ l).
      constructor; [constructor|by apply IH].
Qed.

Lemma re_matches_spaces s : ∀ b,
  re_matches b (Star Space) s ↔ Forall (λ c, isspace c = true) s.
Proof.
  induction s as [|c s IH]; intros b.
  - split; [constructor|constructor].
  - split.
    + intros [?|(c1 & s1 & s2 & [= <- Hs] & H1 & H2)]%re_matches_Star_inv;
        [done|].
      apply re_matches_Space_inv in H1 as (? & [= <- ->] & Hc).
      simpl in Hs. subst. constructor; [done|by apply (IH false)].
    + intros [Hc Hs]%Forall_cons. change (c :: s) with (c :: [] ++ s).
      constructor; [by constructor|by apply IH].
Qed.

(** The patterns of [is_initializer_script]: a word, any white space and a
    character, somewhere in the text. *)
Lemma re_search_marker word c text :
  re_search (Cat (Lit word) (Cat (Star Space) (Chr c))) text = true ↔
  ∃ pre ws post, text = pre ++ word ++ ws ++ c :: post
                 ∧ Forall (λ x, isspace x = true) ws.
Proof.
  rewrite re_search_spec. split.
  - intros (pre & mid & post & -> & H).
    apply re_matches_Cat_inv in H as (s1 & s2 & -> & H1 & H2).
    apply re_matches_Lit in H1 as ->.
    apply re_matches_Cat_inv in H2 as (ws & s3 & -> & H2 & H3).
    apply re_matches_spaces in H2. apply re_matches_Chr_inv in H3 as ->.
    exists pre, ws, post. split; [|done]. by rewrite <- !app_assoc.
  - intros (pre & ws & post & -> & Hws).
    exists pre, (word ++ ws ++ [c]), post. split.
    + by rewrite <- !app_assoc.
    + constructor; [by apply re_matches_Lit|].
      constructor; [by apply re_matches_spaces|constructor].
Qed.

(** The pattern of the two loops: the value starts with [./]. *)
Lemma re_search_relative v : re_search relative_re v = relative (Some v).
Proof.
  apply eq_true_iff_eq. rewrite re_search_spec. split.
  - intros (pre & mid & post & -> & H).
    apply re_matches_Cat_inv in H as (s1 & s2 & -> & H1 & H2).
    apply re_matches_Bol_inv in H1 as [-> Hpre].
    destruct pre; [|by rewrite at_start_cons in Hpre].
    apply re_matches_Cat_inv in H2 as (s3 & s4 & -> & H1 & H2).
    apply re_matches_Chr_inv in H1 as ->. by apply re_matches_Chr_inv in H2 as ->.
  - destruct v as [|c1 [|c2 rest]]; simpl; try done.
    intros [->%N.eqb_eq ->%N.eqb_eq]%andb_true_iff.
    exists [], [46; 47], rest. split; [done|].
    change [46; 47] with ([] ++ [46] ++ [47]).
    constructor; [constructor|]. constructor; constructor.
Qed.

Lemma relative_spec v : relative v = true ↔ ∃ rest, v = Some (46 :: 47 :: rest).
Proof.
  split.
  - destruct v as [[|c1 [|c2 rest]]|]; simpl; try done.
    intros [->%N.eqb_eq ->%N.eqb_eq]%andb_true_iff. eauto.
  - by intros [rest ->].
Qed.

(** ** References into the tree *)

Lemma PageElement_ind' (P : PageElement → Prop) :
  (∀ n a cs, Forall P cs → P (Tag n a cs)) →
  (∀ s, P (NavigableString s)) →
  (∀ s, P (Comment s)) →
  ∀ e, P e.
Proof.
  intros HT HS HC. fix IH 1. intros [n a cs|s|s]; [|apply HS|apply HC].
  apply HT. induction cs as [|c cs IHcs]; constructor; [apply IH|apply IHcs].
Qed.

Lemma get_app p q e : get (p ++ q) e = get p e ≫= get q.
Proof.
  revert e. induction p as [|i p IH]; intros e; simpl; [done|].
  destruct e as [n a cs| |]; try done.
  destruct (cs !! i); simpl; [apply IH|done].
Qed.

Lemma update_app p q f e : update (p ++ q) f e = update p (update q f) e.
Proof.
  revert e. induction p as [|i p IH]; intros e; simpl; [done|].
  destruct e as [n a cs| |]; try done. f_equal.
  apply list_alter_ext; [|done]. intros; apply IH.
Qed.

Lemma path_rel_Above p t r : path_rel p t = Above r → t = p ++ r.
Proof.
  revert t. induction p as [|i p IH]; intros [|j t]; simpl; try congruence.
  case_bool_decide; [|done]. subst. intros ?%IH. by subst.
Qed.

Lemma path_rel_Below p t r : path_rel p t = Below r → p = t ++ r ∧ r ≠ [].
Proof.
  revert t. induction p as [|i p IH]; intros [|j t]; simpl; try congruence.
  - by intros [= <-].
  - case_bool_decide; [|done]. subst. intros [-> ?]%IH. done.
Qed.

Lemma path_rel_refl p : path_rel p p = Above [].
Proof. induction p; simpl; [done|]. by rewrite bool_decide_true. Qed.

Lemma path_rel_app p r : path_rel p (p ++ r) = Above r.
Proof. induction p; simpl; [done|]. by rewrite bool_decide_true. Qed.

(** The node a reference designates after a mutation at [t]. *)
Lemma get_update p : ∀ t f e,
  get p (update t f e) =
  match path_rel p t with
  | Above r => update r f <$> get p e
  | Below r => get t e ≫= λ x, get r (f x)
  | Apart => get p e
  end.
Proof.
  induction p as [|i p IH]; intros [|j t] f e; simpl; try done.
  destruct e as [n a cs| |]; simpl.
  - case_bool_decide as Hij.
    + subst j. rewrite list_lookup_alter_eq.
      destruct (cs !! i) as [c|]; simpl; [|by destruct (path_rel p t)].
      rewrite IH. by destruct (path_rel p t).
    + by rewrite list_lookup_alter_ne.
  - case_bool_decide; [|done]. by destruct (path_rel p t).
  - case_bool_decide; [|done]. by destruct (path_rel p t).
Qed.

Lemma get_update_eq p f e : get p (update p f e) = f <$> get p e.
Proof. by rewrite get_update, path_rel_refl. Qed.

Lemma update_get_ext p f g e :
  (∀ x, get p e = Some x → f x = g x) → update p f e = update p g e.
Proof.
  revert e. induction p as [|i p IH]; intros e H; simpl; [by apply H|].
  destruct e as [n a cs| |]; try done. f_equal.
  apply list_alter_ext; [|done]. intros x Hx.
  apply IH. intros y Hy. apply H. simpl. by rewrite Hx.
Qed.

Lemma update_id p f e :
  (∀ x, get p e = Some x → f x = x) → update p f e = e.
Proof.
  revert e. induction p as [|i p IH]; intros e H; simpl; [by apply H|].
  destruct e as [n a cs| |]; try done. f_equal.
  apply list_eq. intros k. destruct (decide (k = i)) as [->|].
  - rewrite list_lookup_alter_eq. destruct (cs !! i) as [c|] eqn:Hc; [|done].
    simpl. f_equal. apply IH. intros y Hy. apply H. simpl. by rewrite Hc.
  - by rewrite list_lookup_alter_ne.
Qed.

Lemma update_update p f g e :
  update p f (update p g e) = update p (f ∘ g) e.
Proof.
  revert e. induction p as [|i p IH]; intros e; simpl; [done|].
  destruct e as [n a cs| |]; try done. f_equal.
  rewrite list_alter_alter_eq. apply list_alter_ext; [|done].
  intros; apply IH.
Qed.

(** ** find_all *)

Lemma elem_of_find_children F cs : ∀ i p,
  p ∈ find_children F i cs ↔
  ∃ j c q, cs !! j = Some c ∧ q ∈ F c ∧ p = (i + j)%nat :: q.
Proof.
  induction cs as [|c cs IH]; intros i p; simpl.
  - split; [by intros ?%elem_of_nil|]. by intros (j & ? & ? & ? & _).
  - rewrite elem_of_app, list_elem_of_fmap, IH. split.
    + intros [(q & -> & Hq)|(j & c' & q & Hj & Hq & ->)].
      * exists 0%nat, c, q. by rewrite Nat.add_0_r.
      * exists (S j), c', q. split_and!; [done..|f_equal; lia].
    + intros ([|j] & c' & q & Hj & Hq & ->); simpl in Hj.
      * left. exists q. injection Hj as ->. by rewrite Nat.add_0_r.
      * right. exists j, c', q. split_and!; [done..|f_equal; lia].
Qed.

(** A reference is found iff it designates a tag that passes the filter. *)
Lemma elem_of_find_self matches e : ∀ p,
  p ∈ find_self matches e ↔
  ∃ x, get p e = Some x ∧ is_tag x = true ∧ matches x = true.
Proof.
  induction e as [n a cs IH|s|s] using PageElement_ind'; intros p;
    [|split; [by intros ?%elem_of_nil|destruct p; by intros (x & [= <-] & ? & ?)]..].
  cbn [find_self]. rewrite elem_of_app, elem_of_find_children. split.
  - intros [Hp|(j & c & q & Hj & Hq & ->)].
    + destruct (matches (Tag n a cs)) eqn:Hm; [|by apply elem_of_nil in Hp].
      apply list_elem_of_singleton in Hp as ->. by exists (Tag n a cs).
    + rewrite Forall_lookup in IH. apply (IH _ _ Hj) in Hq as (x & Hx & ?).
      exists x. simpl. by rewrite Hj.
  - intros (x & Hx & Ht & Hm). destruct p as [|j q]; simpl in Hx.
    + injection Hx as <-. left. rewrite Hm. by apply list_elem_of_singleton.
    + right. destruct (cs !! j) as [c|] eqn:Hj; [|done].
      exists j, c, q. split_and!; [done| |done].
      rewrite Forall_lookup in IH. apply (IH _ _ Hj). by exists x.
Qed.

Lemma elem_of_find_all matches e p :
  p ∈ find_all matches e ↔
  p ≠ [] ∧ ∃ x, get p e = Some x ∧ is_tag x = true ∧ matches x = true.
Proof.
  destruct e as [n a cs|s|s];
    [|split; [by intros ?%elem_of_nil|destruct p; by intros (? & x & [= <-] & ? & ?)]..].
  cbn [find_all]. rewrite elem_of_find_children. split.
  - intros (j & c & q & Hj & Hq & ->). split; [done|].
    apply elem_of_find_self in Hq as (x & Hx & ?). exists x. simpl.
    by rewrite Hj.
  - intros (Hp & x & Hx & ?). destruct p as [|j q]; [done|]. simpl in Hx.
    destruct (cs !! j) as [c|] eqn:Hj; [|done]. exists j, c, q.
    split_and!; [done| |done]. apply elem_of_find_self. by exists x.
Qed.

Lemma NoDup_find_children F cs :
  Forall (λ c, NoDup (F c)) cs → ∀ i, NoDup (find_children F i cs).
Proof.
  induction 1 as [|c cs Hc Hcs IH]; intros i; simpl; [constructor|].
  apply NoDup_app. split_and!.
  - apply NoDup_fmap_2; [|done]. by intros ?? [= ->].
  - intros p (q & -> & Hq)%list_elem_of_fmap
      (j & c' & q' & _ & _ & [= Hi _])%elem_of_find_children. lia.
  - apply IH.
Qed.

Lemma NoDup_find_self matches e : NoDup (find_self matches e).
Proof.
  induction e as [n a cs IH|s|s] using PageElement_ind'; [|constructor..].
  cbn [find_self]. apply NoDup_app. split_and!.
  - destruct (matches _); [apply NoDup_singleton|constructor].
  - intros p Hp (j & c & q & _ & _ & ->)%elem_of_find_children.
    destruct (matches _); [|by apply elem_of_nil in Hp].
    by apply list_elem_of_singleton in Hp.
  - by apply NoDup_find_children.
Qed.

Lemma NoDup_find_all matches e : NoDup (find_all matches e).
Proof.
  destruct e as [n a cs|s|s]; [|constructor..].
  apply NoDup_find_children, Forall_forall. intros; apply NoDup_find_self.
Qed.

(** Two searches that find the same references find them in the same
    number, and one alone if the other does. *)
Lemma find_all_same_members matches e e' :
  (∀ p, p ∈ find_all matches e ↔ p ∈ find_all matches e') →
  length (find_all matches e) = length (find_all matches e')
  ∧ ∀ p, find_all matches e = [p] ↔ find_all matches e' = [p].
Proof.
  intros H.
  assert (find_all matches e ≡ₚ find_all matches e') as HP
    by (apply NoDup_Permutation; auto using NoDup_find_all).
  split; [by rewrite HP|]. intros p. split; intros Hp.
  - rewrite Hp in HP. symmetry in HP. by apply Permutation_singleton_r in HP.
  - rewrite Hp in HP. by apply Permutation_singleton_r in HP.
Qed.

(** ** The loops of lines 60-69 rewrite every matching tag *)

Lemma rewritten_matching name attr n a cs :
  named_with name attr relative_re (Tag n a cs) = true →
  ∃ v, a !! attr = Some v
       ∧ rewrite_link v = Ok (lit "./node_modules/swagger-ui-dist/" ++ drop 2 v)
       ∧ rewritten name attr n a
         = <[attr := lit "./node_modules/swagger-ui-dist/" ++ drop 2 v]> a.
Proof.
  unfold named_with, rewritten.
  intros [Hn Hv]%andb_true_iff. destruct (a !! attr) as [v|]; [|done].
  rewrite re_search_relative in Hv. rewrite Hn, Hv. exists v.
  apply relative_spec in Hv as [rest [= ->]].
  split_and!; [done|apply rewrite_link_relative|done].
Qed.

Lemma rewritten_not_matching name attr n a cs :
  named_with name attr relative_re (Tag n a cs) = false →
  rewritten name attr n a = a.
Proof.
  unfold named_with, rewritten. destruct (a !! attr) as [v|]; [|done].
  rewrite re_search_relative. by intros ->.
Qed.

Section rewrite_each.
Variables name attr : str.

Let matches := named_with name attr relative_re.
Let G := rewritten name attr.

(** One iteration on a tag of the list, and none for a tag that is not
    in it, both leave the tag with the attributes [G] gives it. *)
Lemma rewrite_each_root pre tags soup n a cs :
  get pre soup = Some (Tag n a cs) →
  rewrite_each attr (((λ q, pre ++ q)
                        <$> (if matches (Tag n a cs) then [[]] else []))
                       ++ tags) soup
  = rewrite_each attr tags (update pre (λ _, Tag n (G n a) cs) soup).
Proof.
  intros Hget. destruct (matches (Tag n a cs)) eqn:Hm.
  - apply rewritten_matching in Hm as (v & Hv & Hrw & HG).
    simpl. rewrite app_nil_r. unfold attr_at. rewrite Hget, Hv, Hrw.
    simpl. f_equal. apply update_get_ext. intros x Hx.
    assert (x = Tag n a cs) as -> by congruence. simpl.
    unfold G. by rewrite HG.
  - apply rewritten_not_matching in Hm. simpl. f_equal. symmetry.
    apply update_id. intros x Hx. unfold G. rewrite Hm. congruence.
Qed.

Let P (e : PageElement) : Prop :=
  ∀ pre soup tags, get pre soup = Some e →
    rewrite_each attr (((λ q, pre ++ q) <$> find_self matches e) ++ tags)
      soup
    = rewrite_each attr tags (update pre (λ _, map_tags G e) soup).

Lemma rewrite_each_children pre todo :
  Forall P todo →
  ∀ done soup tags n a,
    get pre soup = Some (Tag n a (done ++ todo)) →
    rewrite_each attr
      (((λ q, pre ++ q)
          <$> find_children (find_self matches) (length done) todo)
         ++ tags) soup
    = rewrite_each attr tags
        (update pre (λ _, Tag n a (done ++ map (map_tags G) todo)) soup).
Proof.
  induction 1 as [|c todo Hc _ IH]; intros done soup tags n a Hget.
  - simpl. f_equal. symmetry. apply update_id. congruence.
  - cbn [find_children map]. rewrite fmap_app, <- list_fmap_compose.
    rewrite <- app_assoc.
    rewrite (list_fmap_ext _ (λ q, (pre ++ [length done]) ++ q)
               (find_self matches c))
      by (intros; simpl; by rewrite <- app_assoc).
    rewrite Hc; last first.
    { rewrite get_app, Hget. simpl.
      by rewrite list_lookup_middle. }
    set (c' := map_tags G c).
    specialize (IH (done ++ [c'])). rewrite length_app in IH. simpl in IH.
    rewrite Nat.add_1_r in IH. erewrite IH; last first.
    { rewrite get_update, path_rel_app, Hget. simpl. do 2 f_equal.
      rewrite <- (Nat.add_0_r (length done)), alter_app_r. simpl.
      by rewrite <- app_assoc. }
    f_equal. rewrite update_app, update_update. simpl.
    by rewrite <- app_assoc.
Qed.

Lemma rewrite_each_subtree e : P e.
Proof.
  induction e as [n a cs IH|s|s] using PageElement_ind'; intros pre soup tags Hget.
  - cbn [find_self]. rewrite fmap_app, <- app_assoc.
    rewrite (rewrite_each_root _ _ _ _ _ _ Hget).
    rewrite (rewrite_each_children pre cs IH [] _ _ n (G n a)); last first.
    { by rewrite get_update_eq, Hget. }
    by rewrite update_update.
  - simpl. f_equal. symmetry. apply update_id. congruence.
  - simpl. f_equal. symmetry. apply update_id. congruence.
Qed.

(** The loop over the tags that [find_all] returned leaves the document
    in which [G] was applied to every tag. *)
Lemma rewrite_each_find_all soup :
  rewrite_each attr (find_all matches soup) soup
  = Ok (map_descendants G soup).
Proof.
  destruct soup as [n a cs|s|s]; [|done..].
  pose proof (rewrite_each_children [] cs) as H.
  specialize (H (Forall_true _ _ rewrite_each_subtree) [] (Tag n a cs) [] n a eq_refl).
  rewrite app_nil_r in H. simpl in H. rewrite list_fmap_id in H. apply H.
Qed.
End rewrite_each.

(** ** The document after the two loops *)

Lemma rewrite_links_map soup :
  rewrite_links soup
  = Ok (map_descendants (rewritten (lit "script") (lit "src"))
          (map_descendants (rewritten (lit "link") (lit "href")) soup)).
Proof.
  unfold rewrite_links. rewrite rewrite_each_find_all. simpl.
  apply rewrite_each_find_all.
Qed.

Lemma get_map_tags G p : ∀ e, get p (map_tags G e) = map_tags G <$> get p e.
Proof.
  induction p as [|i p IH]; intros e; [done|].
  destruct e as [n a cs|s|s]; simpl; try done.
  rewrite list_lookup_fmap. destruct (cs !! i); simpl; [apply IH|done].
Qed.

Lemma get_map_descendants G p e :
  p ≠ [] → get p (map_descendants G e) = map_tags G <$> get p e.
Proof.
  destruct p as [|i p]; [done|]. intros _.
  destruct e as [n a cs|s|s]; simpl; try done.
  rewrite list_lookup_fmap. destruct (cs !! i); simpl; [apply get_map_tags|done].
Qed.

Lemma get_text_map_tags G e : get_text (map_tags G e) = get_text e.
Proof.
  induction e as [n a cs IH|s|s] using PageElement_ind'; simpl; try done.
  f_equal. induction IH as [|c cs Hc _ IH]; simpl; [done|]. by rewrite Hc, IH.
Qed.

Lemma map_tags_map_tags G1 G2 e :
  map_tags G2 (map_tags G1 e) = map_tags (λ n a, G2 n (G1 n a)) e.
Proof.
  induction e as [n a cs IH|s|s] using PageElement_ind'; simpl; try done.
  f_equal. rewrite map_map. apply map_ext_Forall, IH.
Qed.

Lemma get_rewrite_links soup p :
  p ≠ [] →
  ∃ soup', rewrite_links soup = Ok soup'
           ∧ get p soup' = map_tags both_rewritten <$> get p soup.
Proof.
  intros Hp. eexists. split; [apply rewrite_links_map|].
  rewrite !get_map_descendants by done.
  destruct (get p soup) as [x|]; simpl; [|done]. f_equal.
  exact (map_tags_map_tags _ _ x).
Qed.

Lemma lookup_rewritten name attr n a k :
  rewritten name attr n a !! k =
  if bool_decide (k = attr) && bool_decide (n = name) && relative (a !! attr)
  then (λ v, lit "./node_modules/swagger-ui-dist/" ++ drop 2 v) <$> a !! attr
  else a !! k.
Proof.
  unfold rewritten. destruct (a !! attr) as [v|] eqn:Hv.
  - destruct (decide (k = attr)) as [->|Hk].
    + rewrite (bool_decide_true (attr = attr)) by done. simpl.
      destruct (_ && _); simpl; [by rewrite lookup_insert_eq|done].
    + rewrite (bool_decide_false (k = attr)) by done. simpl.
      destruct (_ && _); simpl; [by rewrite lookup_insert_ne|done].
  - simpl. by rewrite !andb_false_r.
Qed.

Lemma is_Some_lookup_rewritten name attr n a k :
  is_Some (rewritten name attr n a !! k) ↔ is_Some (a !! k).
Proof.
  rewrite lookup_rewritten. destruct (decide (k = attr)) as [->|Hk].
  - rewrite (bool_decide_true (attr = attr)) by done. simpl.
    destruct (_ && _); [|done]. by rewrite fmap_is_Some.
  - by rewrite (bool_decide_false (k = attr)) by done.
Qed.

Lemma named_spec name x :
  is_tag x = true → named name x = true → ∃ a cs, x = Tag name a cs.
Proof.
  destruct x as [n a cs|s|s]; try done. unfold named. simpl.
  intros _ [= ->]%bool_decide_eq_true. eauto.
Qed.

Lemma elem_of_find_all_named name soup p :
  p ∈ find_all (named name) soup ↔
  p ≠ [] ∧ ∃ a cs, get p soup = Some (Tag name a cs).
Proof.
  rewrite elem_of_find_all. split.
  - intros (Hp & x & Hx & Ht & Hn). split; [done|].
    destruct (named_spec _ _ Ht Hn) as (a & cs & ->). eauto.
  - intros (Hp & a & cs & Hx). split; [done|]. eexists. split; [done|].
    split; [done|]. unfold named. simpl. by rewrite bool_decide_true.
Qed.

Lemma both_rewritten_link a k :
  both_rewritten (lit "link") a !! k =
  if bool_decide (k = lit "href") && relative (a !! lit "href")
  then (λ v, lit "./node_modules/swagger-ui-dist/" ++ drop 2 v)
         <$> a !! lit "href"
  else a !! k.
Proof.
  unfold both_rewritten. rewrite lookup_rewritten.
  rewrite (bool_decide_false (lit "link" = lit "script")) by done.
  rewrite andb_false_r. simpl. rewrite lookup_rewritten.
  by rewrite (bool_decide_true (lit "link" = lit "link")), andb_true_r by done.
Qed.

Lemma both_rewritten_script a k :
  both_rewritten (lit "script") a !! k =
  if bool_decide (k = lit "src") && relative (a !! lit "src")
  then (λ v, lit "./node_modules/swagger-ui-dist/" ++ drop 2 v)
         <$> a !! lit "src"
  else a !! k.
Proof.
  unfold both_rewritten. rewrite !lookup_rewritten.
  rewrite (bool_decide_false (lit "script" = lit "link")) by done.
  rewrite (bool_decide_true (lit "script" = lit "script")) by done.
  rewrite (bool_decide_false (lit "src" = lit "href")) by done.
  rewrite !andb_false_r. simpl. rewrite andb_true_r.
  by destruct (bool_decide (k = lit "src")).
Qed.

(** The attribute the loops look at, on an element of one of the two
    kinds, before and after. *)
Lemma attr_at_rewrite_links soup name attr p :
  (name = lit "link" ∧ attr = lit "href")
  ∨ (name = lit "script" ∧ attr = lit "src") →
  p ∈ find_all (named name) soup →
  ∃ soup', rewrite_links soup = Ok soup'
    ∧ p ∈ find_all (named name) soup'
    ∧ attr_at p attr soup' =
      if relative (attr_at p attr soup)
      then (λ v, lit "./node_modules/swagger-ui-dist/" ++ drop 2 v)
             <$> attr_at p attr soup
      else attr_at p attr soup.
Proof.
  intros Hkind (Hp & a & cs & Hget)%elem_of_find_all_named.
  destruct (get_rewrite_links soup p Hp) as (soup' & Hrun & Hget').
  exists soup'. split; [done|]. rewrite Hget in Hget'. simpl in Hget'.
  split.
  - apply elem_of_find_all_named. eauto.
  - unfold attr_at. rewrite Hget, Hget'.
    destruct Hkind as [[-> ->]|[-> ->]].
    + rewrite both_rewritten_link. by rewrite bool_decide_true.
    + rewrite both_rewritten_script. by rewrite bool_decide_true.
Qed.

(** ** C1, C4, C8: the rewrite of the links *)

(** C1.  Every [link] whose [href] is [./rest] and every [script] whose
    [src] is [./rest] has, after the two loops, the value
    [./node_modules/swagger-ui-dist/rest]; the loops do not fail.  The
    segments of the new value are [.], [node_modules], [swagger-ui-dist]
    and then the segments that followed the [.] of the old one. *)
Theorem rewrite_links_relative soup name attr p rest :
  (name = lit "link" ∧ attr = lit "href")
  ∨ (name = lit "script" ∧ attr = lit "src") →
  p ∈ find_all (named name) soup →
  attr_at p attr soup = Some (lit "./" ++ rest) →
  ∃ soup', rewrite_links soup = Ok soup'
    ∧ p ∈ find_all (named name) soup'
    ∧ attr_at p attr soup'
      = Some (lit "./node_modules/swagger-ui-dist/" ++ rest)
    ∧ rewrite_link (lit "./" ++ rest)
      = Ok (lit "./node_modules/swagger-ui-dist/" ++ rest)
    ∧ split 47 (lit "./node_modules/swagger-ui-dist/" ++ rest)
      = [lit "."; lit "node_modules"; lit "swagger-ui-dist"]
          ++ drop 1 (split 47 (lit "./" ++ rest)).
Proof.
  intros Hkind Hp Hv.
  destruct (attr_at_rewrite_links soup name attr p Hkind Hp)
    as (soup' & Hrun & Hp' & Hv').
  exists soup'. rewrite Hv in Hv'. split_and!; try done.
  apply rewrite_link_relative.
Qed.

Lemma rewrite_links_relative_witness :
  ∃ soup', rewrite_links sample_soup = Ok soup'
    ∧ [1; 1; 1]%nat ∈ find_all (named (lit "script")) soup'
    ∧ attr_at [1; 1; 1]%nat (lit "src") soup'
      = Some (lit "./node_modules/swagger-ui-dist/swagger-ui-bundle.js").
Proof.
  destruct (rewrite_links_relative sample_soup (lit "script") (lit "src")
              [1; 1; 1]%nat (lit "swagger-ui-bundle.js"))
    as (soup' & H1 & H2 & H3 & _).
  - right. split; reflexivity.
  - apply (bool_decide_unpack _). vm_compute. exact I.
  - vm_compute. reflexivity.
  - exists soup'. split_and!; assumption.
Defined.

(** C4.  A [link] whose [href], or a [script] whose [src], does not start
    with [./] (an absolute URL, or no such attribute at all) has the same
    value, or the same absence of one, after the two loops. *)
Theorem rewrite_links_frame soup name attr p :
  (name = lit "link" ∧ attr = lit "href")
  ∨ (name = lit "script" ∧ attr = lit "src") →
  p ∈ find_all (named name) soup →
  (∀ rest, attr_at p attr soup ≠ Some (lit "./" ++ rest)) →
  ∃ soup', rewrite_links soup = Ok soup'
    ∧ p ∈ find_all (named name) soup'
    ∧ attr_at p attr soup' = attr_at p attr soup.
Proof.
  intros Hkind Hp Hv.
  destruct (attr_at_rewrite_links soup name attr p Hkind Hp)
    as (soup' & Hrun & Hp' & Hv').
  exists soup'. split_and!; try done. rewrite Hv'.
  destruct (relative _) eqn:Hrel; [|done].
  apply relative_spec in Hrel as [rest Hrest]. by destruct (Hv rest).
Qed.

Lemma rewrite_links_frame_witness :
  ∃ soup', rewrite_links sample_soup = Ok soup'
    ∧ attr_at [1; 0; 2]%nat (lit "href") soup'
      = Some (lit "https://example.org/i.png")
    ∧ attr_at [1; 1; 3]%nat (lit "src") soup' = None.
Proof.
  destruct (rewrite_links_frame sample_soup (lit "link") (lit "href")
              [1; 0; 2]%nat) as (soup' & H1 & _ & H3).
  - left. split; reflexivity.
  - apply (bool_decide_unpack _). vm_compute. exact I.
  - intros rest. vm_compute. discriminate.
  - destruct (rewrite_links_frame sample_soup (lit "script") (lit "src")
                [1; 1; 3]%nat) as (soup2 & H4 & _ & H6).
    + right. split; reflexivity.
    + apply (bool_decide_unpack _). vm_compute. exact I.
    + intros rest. vm_compute. discriminate.
    + exists soup'. split; [exact H1|]. split; [exact H3|].
      rewrite H1 in H4. injection H4 as <-. exact H6.
Defined.

(** C8.  The rewrite is not idempotent: a value [./rest] becomes
    [./node_modules/swagger-ui-dist/rest], and rewriting that value again
    inserts the two segments once more, which gives a different and
    longer value. *)
Theorem rewrite_link_not_idempotent rest :
  ∃ once twice,
    rewrite_link (lit "./" ++ rest) = Ok once
    ∧ once = lit "./node_modules/swagger-ui-dist/" ++ rest
    ∧ rewrite_link once = Ok twice
    ∧ twice = lit "./node_modules/swagger-ui-dist/node_modules/swagger-ui-dist/"
              ++ rest
    ∧ twice ≠ once
    ∧ (length once < length twice)%nat.
Proof.
  eexists _, _. split; [apply rewrite_link_relative|]. split; [done|].
  split; [apply rewrite_link_relative|]. split; [done|].
  assert (∀ a b : str, (length a < length b)%nat → b ≠ a) as Hlen
    by (intros a b Hl ->; lia).
  assert (length (lit "./node_modules/swagger-ui-dist/" ++ rest)
          < length (lit "node_modules/swagger-ui-dist/"
                      ++ lit "./node_modules/swagger-ui-dist/" ++ rest))%nat
    as Hlt by (rewrite (length_app (lit "node_modules/swagger-ui-dist/")); simpl; lia).
  split; [by apply Hlen|done].
Qed.

(** ** C3: the initializer script *)

Lemma is_initializer_script_spec tag :
  is_initializer_script tag = true ↔
  tag_name tag = Some (lit "script")
  ∧ has_attr (lit "src") tag = false
  ∧ re_search onload_re (get_text tag) = true
  ∧ re_search bundle_re (get_text tag) = true.
Proof.
  unfold is_initializer_script.
  destruct (decide (tag_name tag = Some (lit "script"))) as [Hn|Hn].
  - rewrite bool_decide_true by done. simpl.
    destruct (has_attr _ tag); [by split; [|intros (_ & ? & _)]|].
    destruct (re_search onload_re _); simpl;
      [|by split; [|intros (_ & _ & ? & _)]].
    destruct (re_search bundle_re _); simpl;
      [done|by split; [|intros (_ & _ & _ & ?)]].
  - rewrite bool_decide_false by done. simpl. by split; [|intros [? _]].
Qed.

Lemma is_initializer_script_tag tag :
  is_initializer_script tag = true →
  ∃ a cs, tag = Tag (lit "script") a cs ∧ a !! lit "src" = None.
Proof.
  intros (Hn & Ha & _)%is_initializer_script_spec.
  destruct tag as [n a cs|s|s]; try done. injection Hn as ->.
  exists a, cs. split; [done|]. simpl in Ha.
  apply bool_decide_eq_false in Ha. by apply eq_None_not_Some.
Qed.


(** The two patterns, read on the text: the word, any white space, and
    the character that follows. *)
Lemma initializer_script_text tag :
  is_initializer_script tag = true →
  (∃ pre ws post,
     get_text tag = pre ++ lit "window.onload" ++ ws ++ 61 :: post
     ∧ Forall (λ c, isspace c = true) ws)
  ∧ (∃ pre ws post,
       get_text tag = pre ++ lit "SwaggerUIBundle" ++ ws ++ 40 :: post
       ∧ Forall (λ c, isspace c = true) ws).
Proof.
  intros (_ & _ & H1 & H2)%is_initializer_script_spec.
  split; by apply re_search_marker.
Qed.

(** ** Elements whose content is text *)

Lemma raw_text_elements_get p : ∀ e x,
  raw_text_elements e = true → get p e = Some x → raw_text_elements x = true.
Proof.
  induction p as [|i p IH]; intros e x He; simpl; [by intros [= <-]|].
  destruct e as [n a cs|s|s]; try done. simpl in He.
  apply andb_true_iff in He as [_ He]. rewrite forallb_forall in He.
  destruct (cs !! i) as [c|] eqn:Hc; [|done]. simpl. apply IH, He.
  apply list_elem_of_In. by apply list_elem_of_lookup_2 in Hc.
Qed.

(** Nothing below a [script] or a [title] is a tag. *)
Lemma raw_text_below soup q n a cs i r x :
  raw_text_elements soup = true →
  get q soup = Some (Tag n a cs) → raw_text n = true →
  get (q ++ i :: r) soup = Some x → is_tag x = false.
Proof.
  intros Hwf Hq Hn. rewrite get_app, Hq. simpl.
  apply (raw_text_elements_get q _ _ Hwf) in Hq. simpl in Hq. rewrite Hn in Hq.
  apply andb_true_iff in Hq as [Hq _]. rewrite forallb_forall in Hq.
  destruct (cs !! i) as [c|] eqn:Hc; [|done]. simpl.
  assert (is_tag c = false) as Hc'.
  { apply negb_true_iff, Hq, list_elem_of_In.
    by apply list_elem_of_lookup_2 in Hc. }
  destruct r as [|j r]; simpl; [by intros [= <-]|]. by destruct c.
Qed.

(** Two distinct such elements lie apart. *)
Lemma raw_text_apart soup p q n a cs n' a' cs' :
  raw_text_elements soup = true →
  get p soup = Some (Tag n a cs) → raw_text n = true →
  get q soup = Some (Tag n' a' cs') → raw_text n' = true →
  p ≠ q → path_rel p q = Apart.
Proof.
  intros Hwf Hp Hn Hq Hn' Hne. destruct (path_rel p q) as [r|r|] eqn:Hrel.
  - apply path_rel_Above in Hrel as ->. destruct r as [|i r].
    + by rewrite app_nil_r in Hne.
    + by pose proof (raw_text_below _ _ _ _ _ _ _ _ Hwf Hp Hn Hq).
  - apply path_rel_Below in Hrel as [-> Hr]. destruct r as [|i r]; [done|].
    by pose proof (raw_text_below _ _ _ _ _ _ _ _ Hwf Hq Hn' Hp).
  - done.
Qed.

(** ** The title *)

Lemma head_title_spec soup t :
  head_title soup = Some t → t ∈ find_all (named (lit "title")) soup.
Proof.
  unfold head_title, find.
  intros (hp & Hhp & (tp & (x & Hget & Htp)%bind_Some & [= <-])%bind_Some)%bind_Some.
  apply head_Some_elem_of in Hhp, Htp.
  apply elem_of_find_all_named in Hhp as (Hne & _).
  apply elem_of_find_all_named in Htp as (Hne' & a' & cs' & Hget').
  apply elem_of_find_all_named. split; [by destruct hp|].
  exists a', cs'. by rewrite get_app, Hget.
Qed.

Lemma head_title_None soup :
  find_all (named (lit "title")) soup = [] → head_title soup = None.
Proof.
  intros H. destruct (head_title soup) as [t|] eqn:Ht; [|done].
  apply head_title_spec in Ht. rewrite H in Ht. by apply elem_of_nil in Ht.
Qed.

(** ** The initializer scripts are those of the input *)

Lemma tag_name_map_tags G x : tag_name (map_tags G x) = tag_name x.
Proof. by destruct x. Qed.

Lemma is_tag_map_tags G x : is_tag (map_tags G x) = is_tag x.
Proof. by destruct x. Qed.

Lemma has_attr_both_rewritten k x :
  has_attr k (map_tags both_rewritten x) = has_attr k x.
Proof.
  destruct x as [n a cs|s|s]; try done. simpl. apply bool_decide_ext.
  unfold both_rewritten. by rewrite !is_Some_lookup_rewritten.
Qed.

Lemma is_initializer_script_map_tags x :
  is_initializer_script (map_tags both_rewritten x) = is_initializer_script x.
Proof.
  unfold is_initializer_script.
  by rewrite tag_name_map_tags, has_attr_both_rewritten, get_text_map_tags.
Qed.

Lemma get_before_initializer t soup p :
  p ≠ [] →
  get p (before_initializer t soup)
  = map_tags both_rewritten <$> get p (update t (set_string title_text) soup).
Proof.
  intros Hp. unfold before_initializer.
  rewrite !get_map_descendants by done.
  destruct (get p _) as [x|]; simpl; [|done]. f_equal.
  exact (map_tags_map_tags _ _ x).
Qed.

(** Above the title there is no [script]. *)
Lemma title_ancestor soup p r y a cs f :
  raw_text_elements soup = true →
  get p soup = Some y → get r y = Some (Tag (lit "title") a cs) →
  is_initializer_script y = false
  ∧ is_initializer_script (update r (set_string f) y) = false.
Proof.
  intros Hwf Hp Hr.
  assert (∀ z, tag_name z ≠ Some (lit "script") →
               is_initializer_script z = false) as Hno.
  { intros z Hz. destruct (is_initializer_script z) eqn:Hi; [|done].
    by apply is_initializer_script_spec in Hi as [? _]. }
  destruct r as [|i r].
  - injection Hr as ->. by split; apply Hno.
  - destruct y as [n a0 cs0|s|s]; try done.
    assert (n ≠ lit "script") as Hn.
    { intros ->.
      assert (get (p ++ i :: r) soup = Some (Tag (lit "title") a cs)) as Ht
        by (by rewrite get_app, Hp).
      by pose proof (raw_text_below _ _ _ _ _ _ _ _ Hwf Hp eq_refl Ht). }
    split; apply Hno; simpl; congruence.
Qed.

Lemma init_scripts_set_title soup t :
  raw_text_elements soup = true →
  t ∈ find_all (named (lit "title")) soup →
  ∀ p, p ∈ find_all is_initializer_script
             (update t (set_string title_text) soup)
       ↔ p ∈ find_all is_initializer_script soup.
Proof.
  intros Hwf (Ht & a & cs & Hget)%elem_of_find_all_named p.
  rewrite !elem_of_find_all, get_update.
  destruct (path_rel p t) as [r|r|] eqn:Hrel; [| |done].
  - apply path_rel_Above in Hrel as ->. rewrite get_app in Hget.
    destruct (get p soup) as [y|] eqn:Hy; simpl in *;
      [|by split; intros (_ & x & ? & _)].
    destruct (title_ancestor soup p r y a cs title_text Hwf Hy Hget)
      as [H1 H2].
    split; intros (Hp & x & [= <-] & _ & Hx); congruence.
  - apply path_rel_Below in Hrel as [-> Hr]. rewrite Hget. simpl.
    destruct r as [|i r]; [done|]. split.
    + intros (_ & x & Hx & Hx' & _). simpl in Hx.
      destruct i as [|i]; simpl in Hx; [|done].
      destruct r; simpl in Hx; [|done]. by injection Hx as <-.
    + intros (_ & x & Hx & Hx' & _).
      pose proof (raw_text_below _ _ _ _ _ _ _ _ Hwf Hget eq_refl Hx).
      congruence.
Qed.

Lemma init_scripts_before_initializer soup t :
  raw_text_elements soup = true →
  t ∈ find_all (named (lit "title")) soup →
  ∀ p, p ∈ find_all is_initializer_script (before_initializer t soup)
       ↔ p ∈ find_all is_initializer_script soup.
Proof.
  intros Hwf Ht p. rewrite <- (init_scripts_set_title soup t Hwf Ht).
  rewrite !elem_of_find_all. split.
  - intros (Hp & x & Hx & Htag & Hinit). split; [done|].
    rewrite get_before_initializer in Hx by done.
    destruct (get p _) as [y|]; [|done]. injection Hx as <-. exists y.
    by rewrite is_tag_map_tags, is_initializer_script_map_tags in *.
  - intros (Hp & x & Hx & Htag & Hinit). split; [done|].
    rewrite get_before_initializer, Hx by done. eexists. split; [done|].
    by rewrite is_tag_map_tags, is_initializer_script_map_tags.
Qed.

(** ** The run *)

Lemma transform_no_title soup :
  head_title soup = None → transform soup = Raise AttributeError.
Proof. intros H. unfold transform, set_title. by rewrite H. Qed.

Lemma transform_titled soup t :
  head_title soup = Some t →
  transform soup =
  let soup3 := before_initializer t soup in
  let init_scripts := find_all is_initializer_script soup3 in
  if negb (bool_decide (length init_scripts = 1%nat)) then Raise AssertionError
  else
    match init_scripts !! 0%nat with
    | None => Raise IndexError
    | Some p => Ok (update p (set_string initializer_template) soup3)
    end.
Proof.
  intros H. unfold transform, set_title. rewrite H.
  change (Ok ?x ≫= ?f) with (f x). cbv beta. by rewrite rewrite_links_map.
Qed.

(** The result of the mutations, from the initializer scripts of the
    input. *)
Lemma transform_result soup t :
  raw_text_elements soup = true →
  head_title soup = Some t →
  transform soup =
  match find_all is_initializer_script soup with
  | [p0] => Ok (update p0 (set_string initializer_template)
                  (before_initializer t soup))
  | _ => Raise AssertionError
  end.
Proof.
  intros Hwf Ht. rewrite (transform_titled _ _ Ht). cbv zeta.
  pose proof (init_scripts_before_initializer soup t Hwf
                (head_title_spec _ _ Ht)) as Hmem.
  apply find_all_same_members in Hmem as [Hlen Hone].
  destruct (find_all is_initializer_script soup) as [|p0 [|p1 l]] eqn:Hfind.
  - rewrite Hlen. done.
  - by rewrite (proj2 (Hone p0) eq_refl).
  - rewrite Hlen. done.
Qed.

Section run.
Variable BeautifulSoup : str → PageElement.
Variable prettify : PageElement → str.

Lemma main_read fs text :
  fs !! input_path = Some text →
  main BeautifulSoup prettify fs =
  match transform (BeautifulSoup text) with
  | Raise e => (fs, Some e)
  | Ok soup => (<[output_path := prettify soup]> fs, None)
  end.
Proof. intros H. unfold main. by rewrite H. Qed.

Lemma main_completed fs fs' text :
  fs !! input_path = Some text →
  main BeautifulSoup prettify fs = (fs', None) →
  ∃ soup', transform (BeautifulSoup text) = Ok soup'
           ∧ fs' = <[output_path := prettify soup']> fs.
Proof.
  intros Hin. rewrite (main_read _ _ Hin).
  destruct (transform _) as [soup'|e]; [|done]. intros [= <-]. eauto.
Qed.
End run.

(** ** The [script] and [title] elements of the output *)

Lemma get_before_initializer_raw soup t q n a cs :
  raw_text_elements soup = true →
  t ∈ find_all (named (lit "title")) soup →
  q ≠ [] → get q soup = Some (Tag n a cs) → raw_text n = true →
  get q (before_initializer t soup)
  = Some (Tag n (both_rewritten n a)
            (if bool_decide (q = t) then [NavigableString title_text]
             else map (map_tags both_rewritten) cs)).
Proof.
  intros Hwf (Ht & at' & ct & Hget)%elem_of_find_all_named Hq Hgq Hn.
  rewrite get_before_initializer, get_update by done.
  destruct (decide (q = t)) as [->|Hqt].
  - rewrite (bool_decide_true (t = t)) by done.
    rewrite path_rel_refl, Hgq. done.
  - rewrite (bool_decide_false (q = t)) by done.
    by rewrite (raw_text_apart _ _ _ _ _ _ _ _ _ Hwf Hgq Hn Hget eq_refl Hqt),
      Hgq.
Qed.

Lemma get_output_raw soup t p0 q n a cs :
  raw_text_elements soup = true →
  t ∈ find_all (named (lit "title")) soup →
  p0 ∈ find_all is_initializer_script soup →
  q ≠ [] → get q soup = Some (Tag n a cs) → raw_text n = true →
  get q (update p0 (set_string initializer_template)
           (before_initializer t soup))
  = Some (Tag n (both_rewritten n a)
            (if bool_decide (q = p0)
             then [NavigableString initializer_template]
             else if bool_decide (q = t) then [NavigableString title_text]
             else map (map_tags both_rewritten) cs)).
Proof.
  intros Hwf Ht (Hp0 & x & Hx & _ & Hinit)%elem_of_find_all Hq Hgq Hn.
  apply is_initializer_script_tag in Hinit as (a0 & cs0 & -> & _).
  rewrite get_update.
  pose proof (get_before_initializer_raw _ _ _ _ _ _ Hwf Ht Hq Hgq Hn) as Hb.
  destruct (decide (q = p0)) as [->|Hqp].
  - rewrite (bool_decide_true (p0 = p0)) by done.
    rewrite path_rel_refl, Hb. done.
  - rewrite (bool_decide_false (q = p0)) by done.
    by rewrite (raw_text_apart _ _ _ _ _ _ _ _ _ Hwf Hgq Hn Hx eq_refl Hqp).
Qed.

Lemma title_is_not_initializer soup t p0 :
  t ∈ find_all (named (lit "title")) soup →
  p0 ∈ find_all is_initializer_script soup → t ≠ p0.
Proof.
  intros (_ & a & cs & Ht)%elem_of_find_all_named
    (_ & x & Hx & _ & Hinit)%elem_of_find_all ->.
  apply is_initializer_script_tag in Hinit as (a0 & cs0 & -> & _).
  rewrite Ht in Hx. injection Hx as Hn _ _. by vm_compute in Hn.
Qed.

Section runs.
Variable BeautifulSoup : str → PageElement.
Variable prettify : PageElement → str.

(** ** C2, C7: the runs that abort *)


(** C7.  When the parsed document has no [title] element,
    the run ends at line 53 with an [AttributeError] (there is no
    assertion on the title) and leaves every file as it was. *)
Theorem missing_title_aborts fs text :
  fs !! input_path = Some text →
  find_all (named (lit "title")) (BeautifulSoup text) = [] →
  main BeautifulSoup prettify fs = (fs, Some AttributeError).
Proof.
  intros Hin Hnone. rewrite (main_read _ _ _ _ Hin).
  by rewrite (transform_no_title _ (head_title_None _ Hnone)).
Qed.

(** ** C5, C6: the runs that complete *)

(** C5.  Take a parsed document, whose [script] and [title] elements
    hold only text, with exactly one initializer script.  The run
    completes when [soup.head.title] exists, and in the document a
    completed run writes, the initializer holds the template as its only
    text, while every other [script] element is still a [script] element
    at its place with the text it had. *)
Theorem only_initializer_replaced fs text soup p0 :
  fs !! input_path = Some text →
  BeautifulSoup text = soup →
  raw_text_elements soup = true →
  find_all is_initializer_script soup = [p0] →
  (is_Some (head_title soup) →
   snd (main BeautifulSoup prettify fs) = None)
  ∧ ∀ fs', main BeautifulSoup prettify fs = (fs', None) →
      ∃ soup',
        fs' = <[output_path := prettify soup']> fs
        ∧ (∃ a, get p0 soup'
                = Some (Tag (lit "script") a
                          [NavigableString initializer_template]))
        ∧ get_text <$> get p0 soup' = Some initializer_template
        ∧ ∀ q, q ∈ find_all (named (lit "script")) soup → q ≠ p0 →
               q ∈ find_all (named (lit "script")) soup'
               ∧ get_text <$> get q soup' = get_text <$> get q soup.
Proof.
  intros Hin Hsoup Hwf Hone. split.
  - intros [t Ht]. rewrite (main_read _ _ _ _ Hin), Hsoup.
    by rewrite (transform_result _ _ Hwf Ht), Hone.
  - intros fs' Hrun.
    apply (main_completed _ _ _ _ _ Hin) in Hrun as (soup' & Hrun & ->).
    rewrite Hsoup in Hrun. exists soup'. split; [done|].
    destruct (head_title soup) as [t|] eqn:Ht;
      [|by rewrite (transform_no_title _ Ht) in Hrun].
    rewrite (transform_result _ _ Hwf Ht), Hone in Hrun.
    injection Hrun as <-. apply head_title_spec in Ht.
    assert (p0 ∈ find_all is_initializer_script soup) as Hp0
      by (rewrite Hone; apply list_elem_of_singleton; done).
    pose proof Hp0 as (Hne & x & Hx & _ & Hinit)%elem_of_find_all.
    apply is_initializer_script_tag in Hinit as (a0 & cs0 & -> & _).
    pose proof (get_output_raw _ _ _ _ _ _ _ Hwf Ht Hp0 Hne Hx eq_refl)
      as Hout.
    rewrite bool_decide_true in Hout by done.
    split; [eauto|]. split.
    { rewrite Hout. cbn [fmap option_fmap option_map get_text map concat].
      by rewrite app_nil_r. }
    intros q (Hq & a & cs & Hgq)%elem_of_find_all_named Hqp.
    pose proof (get_output_raw _ _ _ _ _ _ _ Hwf Ht Hp0 Hq Hgq eq_refl)
      as Hq'.
    rewrite (bool_decide_false (q = p0)) in Hq' by done.
    rewrite bool_decide_false in Hq'; last first.
    { intros ->. apply elem_of_find_all_named in Ht as (_ & ? & ? & Ht).
      rewrite Ht in Hgq. injection Hgq as Hn _ _. by vm_compute in Hn. }
    split; [apply elem_of_find_all_named; eauto|].
    rewrite Hq', Hgq. simpl. f_equal.
    exact (get_text_map_tags both_rewritten (Tag (lit "script") a cs)).
Qed.

End runs.

(** *** The runs on the sample documents *)



Lemma missing_title_aborts_witness :
  main (parser_yielding untitled_soup) get_text sample_files
  = (sample_files, Some AttributeError).
Proof.
  apply (missing_title_aborts (parser_yielding untitled_soup) get_text
           sample_files sample_text).
  - vm_compute. reflexivity.
  - vm_compute. reflexivity.
Defined.

(** A document without a title: the failure is the [AttributeError] of
    the attribute access on [None], not an assertion failure. *)
Lemma missing_title_not_assertion :
  find_all (named (lit "title")) untitled_soup = []
  ∧ length (find_all is_initializer_script untitled_soup) = 1%nat
  ∧ snd (main (parser_yielding untitled_soup) get_text sample_files)
    = Some AttributeError
  ∧ snd (main (parser_yielding untitled_soup) get_text sample_files)
    ≠ Some AssertionError.
Proof.
  split_and!; [vm_compute; reflexivity..|vm_compute; discriminate].
Qed.

Lemma only_initializer_replaced_witness :
  ∃ soup',
    fst (main (parser_yielding sample_soup) get_text sample_files)
    = <[output_path := get_text soup']> sample_files
    ∧ get_text <$> get [1; 1; 3]%nat soup' = Some initializer_template
    ∧ get_text <$> get [1; 1; 2]%nat soup' = Some (lit "console.log(1)").
Proof.
  destruct (only_initializer_replaced (parser_yielding sample_soup) get_text
              sample_files sample_text sample_soup [1; 1; 3]%nat)
    as [_ H].
  - vm_compute. reflexivity.
  - reflexivity.
  - vm_compute. reflexivity.
  - vm_compute. reflexivity.
  - destruct (H (fst (main (parser_yielding sample_soup) get_text
                        sample_files)))
      as (soup' & Hfs & _ & Htpl & Hothers).
    + vm_compute. reflexivity.
    + exists soup'. split; [exact Hfs|]. split; [exact Htpl|].
      destruct (Hothers [1; 1; 2]%nat) as [_ Hq].
      * apply (bool_decide_unpack _). vm_compute. exact I.
      * discriminate.
      * rewrite Hq. vm_compute. reflexivity.
Defined.



(** A document with exactly one initializer script, the script of an
    inline drawing, that holds an element with a script of its own: the
    run completes, and that other script, whose text was
    [console.log(1)], is no longer in the tree, since line 102 drops the
    children of the initializer. *)
Lemma nested_script_not_kept :
  find_all is_initializer_script nested_script_soup = [[0; 1; 0; 0]%nat]
  ∧ is_Some (head_title nested_script_soup)
  ∧ get [0; 1; 0; 0; 1; 0]%nat nested_script_soup = Some sample_other_script
  ∧ ∃ soup',
      transform nested_script_soup = Ok soup'
      ∧ get_text <$> get [0; 1; 0; 0]%nat soup' = Some initializer_template
      ∧ get [0; 1; 0; 0; 1; 0]%nat soup' = None
      ∧ get_text <$> get [0; 1; 0; 0; 1; 0]%nat soup'
        ≠ get_text <$> get [0; 1; 0; 0; 1; 0]%nat nested_script_soup.
Proof.
  split; [vm_compute; reflexivity|]. split; [by eexists|].
  split; [vm_compute; reflexivity|].
  exists (match transform nested_script_soup with
          | Ok soup' => soup'
          | Raise _ => nested_script_soup
          end).
  split_and!; [vm_compute; reflexivity..|vm_compute; discriminate].
Qed.

(** ** C9: the pairs of [parseQuery] *)

Lemma split_eq_unfold pair :
  split 61 pair
  = key_text pair
    :: (if bool_decide (61 ∈ pair) then split 61 (after_first_eq pair)
        else []).
Proof.
  induction pair as [|c s IH]; cbn [split key_text after_first_eq].
  - rewrite bool_decide_false; [done|]. by intros ?%elem_of_nil.
  - destruct (N.eqb_spec c 61) as [->|Hne].
    + rewrite bool_decide_true; [done|]. by left.
    + rewrite IH. f_equal. destruct (decide (61 ∈ s)) as [Hin|Hin].
      * rewrite !bool_decide_true; [done|by right|done].
      * rewrite !bool_decide_false; [done| |done].
        intros [?|?]%elem_of_cons; congruence.
Qed.

(** [pair[0]] is the text before the first [=]. *)
Lemma split_eq_first pair : split 61 pair !! 0%nat = Some (key_text pair).
Proof. by rewrite split_eq_unfold. Qed.

Lemma key_text_no_eq s : 61 ∉ s → key_text s = s.
Proof.
  induction s as [|c s IH]; simpl; [done|]. intros Hc.
  destruct (N.eqb_spec c 61) as [->|Hne]; [by destruct Hc; left|].
  rewrite IH; [done|]. intros ?. apply Hc. by right.
Qed.

Lemma after_first_eq_no_eq s : 61 ∉ s → after_first_eq s = [].
Proof.
  induction s as [|c s IH]; simpl; [done|]. intros Hc.
  destruct (N.eqb_spec c 61) as [->|Hne]; [by destruct Hc; left|].
  apply IH. intros ?. apply Hc. by right.
Qed.

(** [pair[1] || ''] is the text between the first and the second [=]. *)
Lemma split_eq_second pair :
  or_empty (split 61 pair !! 1%nat) = second_segment pair.
Proof.
  rewrite split_eq_unfold. unfold second_segment. simpl.
  case_bool_decide as Hin.
  - rewrite split_eq_first. simpl. by destruct (key_text _).
  - by rewrite after_first_eq_no_eq.
Qed.

(** One iteration, in the terms of the specification. *)
Lemma parseQuery_loop_cons pair pairs query :
  parseQuery_loop (pair :: pairs) query
  = key ← decodeURIComponent (key_text pair);
    value ← decodeURIComponent (second_segment pair);
    parseQuery_loop pairs (js_set key value query).
Proof.
  cbn [parseQuery_loop]. cbv zeta. by rewrite split_eq_first, split_eq_second.
Qed.

Lemma parseQuery_loop_app l1 l2 query :
  parseQuery_loop (l1 ++ l2) query
  = parseQuery_loop l1 query ≫= parseQuery_loop l2.
Proof.
  revert query. induction l1 as [|p l1 IH]; intros query; [done|].
  rewrite <- app_comm_cons, !parseQuery_loop_cons.
  destruct (decodeURIComponent (key_text p)) as [k|]; [|done].
  destruct (decodeURIComponent (second_segment p)) as [v|]; [|done].
  apply IH.
Qed.

Lemma lookup_js_set key value query k :
  js_set key value query !! k =
  if bool_decide (key = lit "__proto__") then query !! k
  else if bool_decide (key = k) then Some value
  else query !! k.
Proof.
  unfold js_set. destruct (bool_decide (key = lit "__proto__")); [done|].
  case_bool_decide as Hk.
  - subst. by rewrite lookup_insert_eq.
  - by rewrite lookup_insert_ne.
Qed.

(** The pairs with another key leave the entry of [key] alone. *)
Lemma parseQuery_loop_other pairs : ∀ query query' key,
  parseQuery_loop pairs query = Some query' →
  (∀ p, p ∈ pairs → decodeURIComponent (key_text p) ≠ Some key) →
  query' !! key = query !! key.
Proof.
  induction pairs as [|p pairs IH]; intros query query' key.
  - by intros [= <-].
  - rewrite parseQuery_loop_cons. intros Hrun Hother.
    destruct (decodeURIComponent (key_text p)) as [k|] eqn:Hk; [|done].
    destruct (decodeURIComponent (second_segment p)) as [v|]; [|done].
    simpl in Hrun. rewrite (IH _ _ key Hrun).
    + rewrite lookup_js_set. destruct (bool_decide (k = lit "__proto__")); [done|].
      rewrite bool_decide_false; [done|]. intros ->.
      apply (Hother p); [by left|done].
    + intros p' Hp'. apply Hother. by right.
Qed.

Lemma decodeURIComponent_empty : decodeURIComponent [] = Some [].
Proof. reflexivity. Qed.

(** C9.  When [parseQuery] returns (no [URIError]), take one
    of the [&]-separated pairs, whose decoded key is not [__proto__] and is
    not the key of a later pair.  The value recorded for its key is the
    decoded text between the first and the second [=] of the pair, and what
    follows a second [=] is dropped; it is the empty string when the pair
    has no [=], or nothing between its first [=] and the next. *)
Theorem parseQuery_records queryString query before pair after key :
  parseQuery queryString = Some query →
  query_pairs queryString = before ++ pair :: after →
  decodeURIComponent (key_text pair) = Some key →
  key ≠ lit "__proto__" →
  (∀ p, p ∈ after → decodeURIComponent (key_text p) ≠ Some key) →
  (∃ value, decodeURIComponent (second_segment pair) = Some value
            ∧ query !! key = Some value)
  ∧ (second_segment pair = [] → query !! key = Some [])
  ∧ (61 ∉ pair → second_segment pair = []).
Proof.
  unfold parseQuery. intros Hrun Hpairs Hkey Hproto Hlater.
  rewrite Hpairs, parseQuery_loop_app in Hrun.
  apply bind_Some in Hrun as (query1 & _ & Hrun).
  rewrite parseQuery_loop_cons, Hkey in Hrun. simpl in Hrun.
  destruct (decodeURIComponent (second_segment pair)) as [value|] eqn:Hvalue;
    [|done].
  simpl in Hrun.
  assert (query !! key = Some value) as Hrec.
  { rewrite (parseQuery_loop_other _ _ _ key Hrun Hlater), lookup_js_set.
    rewrite (bool_decide_false (key = lit "__proto__")) by done.
    by rewrite bool_decide_true. }
  split_and!.
  - eauto.
  - intros Hempty. rewrite Hempty in Hvalue. rewrite Hrec.
    rewrite decodeURIComponent_empty in Hvalue. congruence.
  - intros Hno. unfold second_segment. by rewrite after_first_eq_no_eq.
Qed.

Lemma parseQuery_records_witness :
  ∃ query, parseQuery (lit "?a=b=c&d&e=&a=z") = Some query
           ∧ query !! lit "d" = Some []
           ∧ query !! lit "e" = Some [].
Proof.
  exists (default ∅ (parseQuery (lit "?a=b=c&d&e=&a=z"))).
  assert (parseQuery (lit "?a=b=c&d&e=&a=z")
          = Some (default ∅ (parseQuery (lit "?a=b=c&d&e=&a=z")))) as Hrun
    by (vm_compute; reflexivity).
  split; [exact Hrun|]. split.
  - refine (proj1 (proj2 (parseQuery_records (lit "?a=b=c&d&e=&a=z") _
                            [lit "a=b=c"] (lit "d") [lit "e="; lit "a=z"]
                            (lit "d") Hrun _ _ _ _)) _).
    + vm_compute. reflexivity.
    + vm_compute. reflexivity.
    + discriminate.
    + intros p Hp. apply list_elem_of_In in Hp.
      destruct Hp as [<-|[<-|[]]]; vm_compute; discriminate.
    + vm_compute. reflexivity.
  - refine (proj1 (proj2 (parseQuery_records (lit "?a=b=c&d&e=&a=z") _
                            [lit "a=b=c"; lit "d"] (lit "e=") [lit "a=z"]
                            (lit "e") Hrun _ _ _ _)) _).
    + vm_compute. reflexivity.
    + vm_compute. reflexivity.
    + discriminate.
    + intros p Hp. apply list_elem_of_In in Hp.
      destruct Hp as [<-|[]]; vm_compute; discriminate.
    + vm_compute. reflexivity.
Defined.

(** The pair [a=b=c] has two [=]; the value recorded for [a] is [b], the
    text between them, and not [c], the value of the last [=]-split. *)
Lemma last_split_does_not_win :
  query_pairs (lit "a=b=c") = [lit "a=b=c"]
  ∧ count_eq (lit "a=b=c") = 2%nat
  ∧ decodeURIComponent (last_segment (lit "a=b=c")) = Some (lit "c")
  ∧ ∃ query, parseQuery (lit "a=b=c") = Some query
             ∧ query !! lit "a" = Some (lit "b")
             ∧ query !! lit "a"
               ≠ decodeURIComponent (last_segment (lit "a=b=c")).
Proof.
  split_and!; [vm_compute; reflexivity..|].
  exists (default ∅ (parseQuery (lit "a=b=c"))).
  split_and!; [vm_compute; reflexivity..|vm_compute; discriminate].
Qed.

(** * Further properties of the script *)

(** ** rewrite_link on any value *)

Lemma split_first_empty sep s :
  (∃ ws, split sep s = [] :: ws) ↔ s = [] ∨ head s = Some sep.
Proof.
  destruct s as [|c s]; simpl.
  - split; [by left|]. intros _. by exists [].
  - destruct (N.eqb_spec c sep) as [->|Hne].
    + split; [by right|]. intros _. by eexists.
    + pose proof (split_nonempty sep s).
      destruct (split sep s) as [|w ws]; [done|].
      split; [by intros [? [=]]|]. intros [?|[= ?]]; congruence.
Qed.

(** The values [rewrite_link] accepts, and what it returns for them. *)
Lemma rewrite_link_Ok_inv s r :
  rewrite_link s = Ok r →
  (s = [46] ∧ r = lit "./node_modules/swagger-ui-dist")
  ∨ (∃ rest, s = 46 :: 47 :: rest
             ∧ r = lit "./node_modules/swagger-ui-dist/" ++ rest).
Proof.
  destruct s as [|c [|d rest]].
  - by intros [=].
  - unfold rewrite_link. simpl. destruct (N.eqb_spec c 47) as [->|Hne].
    + by intros [=].
    + case_bool_decide as Hc; [|by intros [=]]. injection Hc as ->.
      intros [= <-]. by left.
  - destruct (decide (c = 46 ∧ d = 47)) as [[-> ->]|Hne].
    + rewrite rewrite_link_relative. intros [= <-]. right. eauto.
    + unfold rewrite_link. case_bool_decide as Hc; [|by intros [=]].
      exfalso. apply Hne. cbn [split] in Hc.
      destruct (N.eqb_spec c 47) as [->|Hc47]; [by injection Hc|].
      destruct (N.eqb_spec d 47) as [->|Hd47].
      * simpl in Hc. by injection Hc as ->.
      * pose proof (split_nonempty 47 rest).
        destruct (split 47 rest) as [|w ws]; [done|]. by injection Hc.
Qed.

Lemma rewrite_link_dot : rewrite_link [46] = Ok (lit "./node_modules/swagger-ui-dist").
Proof. reflexivity. Qed.

Lemma dot_first_spec s :
  dot_first s = true ↔ s = [46] ∨ ∃ rest, s = 46 :: 47 :: rest.
Proof.
  destruct s as [|c [|d rest]]; simpl.
  - split; [done|]. by intros [?|[? ?]].
  - rewrite andb_true_r, N.eqb_eq. split; [intros ->; by left|].
    by intros [[= ->]|[? [=]]].
  - rewrite andb_true_iff, !N.eqb_eq. split.
    + intros [-> ->]. right. eauto.
    + by intros [[=]|[? [= -> -> _]]].
Qed.

(** X1.  [rewrite_link] accepts exactly the values whose first segment is
    [.], that is [.] itself and the values that start with [./]: it
    returns [./node_modules/swagger-ui-dist] followed by what came after
    the dot.  On every other value, the empty one included, its assertion
    fails. *)
Theorem rewrite_link_cases link_str :
  rewrite_link link_str =
  if dot_first link_str
  then Ok (lit "./node_modules/swagger-ui-dist" ++ drop 1 link_str)
  else Raise AssertionError.
Proof.
  destruct (dot_first link_str) eqn:Hdot.
  - apply dot_first_spec in Hdot as [->|[rest ->]]; [done|].
    by rewrite rewrite_link_relative.
  - destruct (rewrite_link link_str) as [r|e] eqn:Hr.
    + apply rewrite_link_Ok_inv in Hr as [[-> _]|(rest & -> & _)]; done.
    + unfold rewrite_link in Hr.
      destruct (bool_decide _); [done|]. by injection Hr as <-.
Qed.

(** X2.  When [rewrite_link] returns, the segments of its result are [.],
    [node_modules], [swagger-ui-dist] and then the segments of the
    argument after the first, unchanged and in order. *)
Theorem rewrite_link_segments link_str r :
  rewrite_link link_str = Ok r →
  split 47 r
  = [lit "."; lit "node_modules"; lit "swagger-ui-dist"]
      ++ drop 1 (split 47 link_str).
Proof. by intros [[-> ->]|(rest & -> & ->)]%rewrite_link_Ok_inv. Qed.

Lemma rewrite_link_segments_witness :
  split 47 (lit "./node_modules/swagger-ui-dist/css/a.css")
  = [lit "."; lit "node_modules"; lit "swagger-ui-dist"; lit "css";
     lit "a.css"].
Proof.
  exact (rewrite_link_segments (lit "./css/a.css")
           (lit "./node_modules/swagger-ui-dist/css/a.css") eq_refl).
Defined.

(** X3.  [rewrite_link] loses nothing: two values with the same result
    are the same value. *)
Theorem rewrite_link_injective a b r :
  rewrite_link a = Ok r → rewrite_link b = Ok r → a = b.
Proof.
  intros [[-> ->]|(ra & -> & ->)]%rewrite_link_Ok_inv
         [[-> Hr]|(rb & -> & Hr)]%rewrite_link_Ok_inv; try done.
  by apply app_inv_head in Hr as ->.
Qed.

Lemma rewrite_link_injective_witness : lit "./a/b" = lit "./a/b".
Proof.
  exact (rewrite_link_injective (lit "./a/b") (lit "./a/b")
           (lit "./node_modules/swagger-ui-dist/a/b") eq_refl eq_refl).
Defined.

(** X4.  The two loops never raise, whatever the document: the assertion
    of [rewrite_link] cannot fail on a value the pattern selected, and the
    attribute read is present.  They leave the text of the document as it
    was. *)
Theorem rewrite_links_never_raises soup :
  ∃ soup', rewrite_links soup = Ok soup' ∧ get_text soup' = get_text soup.
Proof.
  eexists. split; [apply rewrite_links_map|].
  destruct soup as [n a cs|s|s]; try done. simpl. f_equal.
  rewrite !map_map. apply map_ext. intros x.
  by rewrite !get_text_map_tags.
Qed.

(** ** The ways a run ends *)

Lemma transform_titled_outcome soup t :
  head_title soup = Some t →
  (∃ soup', transform soup = Ok soup') ∨ transform soup = Raise AssertionError.
Proof.
  intros Ht. rewrite (transform_titled _ _ Ht). cbv zeta.
  destruct (find_all is_initializer_script (before_initializer t soup))
    as [|p0 [|p1 l]]; simpl; eauto.
Qed.

Section outcomes.
Variable BeautifulSoup : str → PageElement.
Variable prettify : PageElement → str.

(** X5.  For a parsed document whose [script] and [title] elements hold
    only text, the run completes and writes the output file iff
    [soup.head.title] exists and exactly one script is an initializer. *)
Theorem main_completes_iff fs text soup :
  fs !! input_path = Some text →
  BeautifulSoup text = soup →
  raw_text_elements soup = true →
  snd (main BeautifulSoup prettify fs) = None
  ↔ is_Some (head_title soup)
    ∧ length (find_all is_initializer_script soup) = 1%nat.
Proof.
  intros Hin Hsoup Hwf. rewrite (main_read _ _ _ _ Hin), Hsoup.
  destruct (head_title soup) as [t|] eqn:Ht.
  - rewrite (transform_result _ _ Hwf Ht).
    destruct (find_all is_initializer_script soup) as [|p0 [|p1 l]]; simpl.
    + split; [done|]. by intros [_ ?].
    + split; [|done]. intros _. split; [by eexists|done].
    + split; [done|]. by intros [_ ?].
  - rewrite (transform_no_title _ Ht). simpl. split; [done|].
    by intros [[? ?] _].
Qed.

End outcomes.

Lemma main_completes_iff_witness :
  snd (main (parser_yielding sample_soup) get_text sample_files) = None
  ↔ is_Some (head_title sample_soup)
    ∧ length (find_all is_initializer_script sample_soup) = 1%nat.
Proof.
  apply (main_completes_iff (parser_yielding sample_soup) get_text
           sample_files sample_text sample_soup).
  - vm_compute. reflexivity.
  - reflexivity.
  - vm_compute. reflexivity.
Defined.


(** X6.  Whatever the files and the document, a run ends in one of four
    ways: it completes, the input file is missing ([FileNotFoundError]),
    line 53 fails ([AttributeError]) or an assertion fails.  The
    [KeyError] of a missing attribute in the loops and the [IndexError] of
    [init_scripts[0]] never occur. *)
Theorem main_outcomes (BeautifulSoup : str → PageElement)
    (prettify : PageElement → str) fs :
  snd (main BeautifulSoup prettify fs) = None
  ∨ snd (main BeautifulSoup prettify fs) = Some FileNotFoundError
  ∨ snd (main BeautifulSoup prettify fs) = Some AttributeError
  ∨ snd (main BeautifulSoup prettify fs) = Some AssertionError.
Proof.
  unfold main. destruct (fs !! input_path) as [text|]; [|by right; left].
  destruct (head_title (BeautifulSoup text)) as [t|] eqn:Ht.
  - destruct (transform_titled_outcome _ _ Ht) as [[soup' ->]| ->];
      [by left|by do 3 right].
  - rewrite (transform_no_title _ Ht). by right; right; left.
Qed.

(** ** What the written document keeps *)

Lemma update_set_string_root r v n a cs :
  ∃ cs', update r (set_string v) (Tag n a cs) = Tag n a cs'.
Proof. destruct r; simpl; eauto. Qed.

Lemma both_rewritten_other n a k :
  ¬ (n = lit "link" ∧ k = lit "href") →
  ¬ (n = lit "script" ∧ k = lit "src") →
  both_rewritten n a !! k = a !! k.
Proof.
  intros Hlink Hscript. unfold both_rewritten. rewrite lookup_rewritten.
  destruct (decide (k = lit "src")) as [->|Hk];
    [destruct (decide (n = lit "script")) as [->|Hn]|].
  - by destruct Hscript.
  - rewrite (bool_decide_false (n = lit "script")), andb_false_r by done.
    simpl. rewrite lookup_rewritten.
    by rewrite (bool_decide_false (lit "src" = lit "href")) by done.
  - rewrite (bool_decide_false (k = lit "src")) by done. simpl.
    rewrite lookup_rewritten.
    destruct (decide (k = lit "href")) as [->|Hk'];
      [|by rewrite (bool_decide_false (k = lit "href")) by done].
    rewrite (bool_decide_false (n = lit "link")), andb_false_r; [done|].
    intros ->. by destruct Hlink.
Qed.

(** An element of the input is still there, with its name and the
    attributes the loops gave it, once the title and the initializer
    have been replaced. *)
Lemma get_output_tag soup t p0 q n a cs :
  raw_text_elements soup = true →
  t ∈ find_all (named (lit "title")) soup →
  p0 ∈ find_all is_initializer_script soup →
  q ≠ [] → get q soup = Some (Tag n a cs) →
  ∃ cs', get q (update p0 (set_string initializer_template)
                  (before_initializer t soup))
         = Some (Tag n (both_rewritten n a) cs').
Proof.
  intros Hwf (Ht & at' & ct & Hgt)%elem_of_find_all_named
    (Hp0 & x & Hx & _ & Hinit)%elem_of_find_all Hq Hgq.
  apply is_initializer_script_tag in Hinit as (a0 & cs0 & -> & _).
  assert (∃ cs1, get q (before_initializer t soup)
                 = Some (Tag n (both_rewritten n a) cs1)) as [cs1 Hb].
  { rewrite get_before_initializer, get_update by done.
    destruct (path_rel q t) as [r|r|] eqn:Hrel.
    - rewrite Hgq. simpl.
      destruct (update_set_string_root r title_text n a cs) as [cs' ->].
      simpl. eauto.
    - apply path_rel_Below in Hrel as [-> Hr]. destruct r as [|i r]; [done|].
      by pose proof (raw_text_below _ _ _ _ _ _ _ _ Hwf Hgt eq_refl Hgq).
    - rewrite Hgq. simpl. eauto. }
  rewrite get_update. destruct (path_rel q p0) as [r|r|] eqn:Hrel.
  - rewrite Hb. simpl.
    destruct (update_set_string_root r initializer_template n
                (both_rewritten n a) cs1) as [cs' ->]. eauto.
  - apply path_rel_Below in Hrel as [-> Hr]. destruct r as [|i r]; [done|].
    by pose proof (raw_text_below _ _ _ _ _ _ _ _ Hwf Hx eq_refl Hgq).
  - eauto.
Qed.

Lemma transform_Ok_inv soup soup' :
  raw_text_elements soup = true →
  transform soup = Ok soup' →
  ∃ t p0, head_title soup = Some t
          ∧ find_all is_initializer_script soup = [p0]
          ∧ soup' = update p0 (set_string initializer_template)
                      (before_initializer t soup).
Proof.
  intros Hwf Hrun. destruct (head_title soup) as [t|] eqn:Ht;
    [|by rewrite (transform_no_title _ Ht) in Hrun].
  rewrite (transform_result _ _ Hwf Ht) in Hrun.
  destruct (find_all is_initializer_script soup) as [|p0 [|p1 l]]; try done.
  injection Hrun as <-. eauto.
Qed.

(** X8.  In the tree a completed run hands to [prettify], every element
    of the parsed document is still at its place under its name, and
    every attribute other than the [href] of a [link] and the [src] of a
    [script] has the value it had: a relative [href] on an [a], or [src]
    on an [img], is not rewritten.  (The document is one whose [script]
    and [title] elements hold only text.) *)
Theorem output_attributes soup soup' q n a cs :
  raw_text_elements soup = true →
  transform soup = Ok soup' →
  q ≠ [] → get q soup = Some (Tag n a cs) →
  ∃ a' cs',
    get q soup' = Some (Tag n a' cs')
    ∧ ∀ k, ¬ (n = lit "link" ∧ k = lit "href") →
           ¬ (n = lit "script" ∧ k = lit "src") →
           a' !! k = a !! k.
Proof.
  intros Hwf (t & p0 & Ht & Hp0 & ->)%transform_Ok_inv Hq Hgq; [|done].
  apply head_title_spec in Ht.
  assert (p0 ∈ find_all is_initializer_script soup) as Hin
    by (rewrite Hp0; by apply list_elem_of_singleton).
  destruct (get_output_tag _ _ _ _ _ _ _ Hwf Ht Hin Hq Hgq) as [cs' Hout].
  exists (both_rewritten n a), cs'. split; [done|].
  intros k. apply both_rewritten_other.
Qed.

Lemma output_attributes_witness :
  ∃ soup' a' cs',
    transform sample_soup = Ok soup'
    ∧ get [1; 0; 1]%nat soup' = Some (Tag (lit "link") a' cs')
    ∧ a' !! lit "rel" = Some (lit "stylesheet").
Proof.
  destruct (output_attributes sample_soup
              (match transform sample_soup with
               | Ok soup' => soup'
               | Raise _ => sample_soup
               end)
              [1; 0; 1]%nat (lit "link")
              (attrs_of [("rel", "stylesheet"); ("href", "./swagger-ui.css")]%string)
              [])
    as (a' & cs' & Hget & Hattrs).
  - vm_compute. reflexivity.
  - vm_compute. reflexivity.
  - discriminate.
  - vm_compute. reflexivity.
  - eexists _, a', cs'. split; [vm_compute; reflexivity|].
    split; [exact Hget|]. rewrite (Hattrs (lit "rel")).
    + vm_compute. reflexivity.
    + intros [_ Hk]. discriminate Hk.
    + intros [Hn _]. discriminate Hn.
Defined.



(** X10.  In a document whose [script] and [title] elements hold only
    text, only the title that [soup.head.title] designates is replaced:
    any other [title] element of the document (one outside [head], or a
    second one inside it) keeps its text in the tree a completed run
    hands to [prettify]. *)
Theorem other_titles_untouched soup t p0 q :
  raw_text_elements soup = true →
  head_title soup = Some t →
  find_all is_initializer_script soup = [p0] →
  q ∈ find_all (named (lit "title")) soup → q ≠ t →
  ∃ soup',
    transform soup = Ok soup'
    ∧ q ∈ find_all (named (lit "title")) soup'
    ∧ get_text <$> get q soup' = get_text <$> get q soup.
Proof.
  intros Hwf Ht Hp0 Hq Hqt. eexists.
  split; [by rewrite (transform_result _ _ Hwf Ht), Hp0|].
  apply head_title_spec in Ht.
  assert (p0 ∈ find_all is_initializer_script soup) as Hin
    by (rewrite Hp0; by apply list_elem_of_singleton).
  pose proof Hq as (Hne & a & cs & Hgq)%elem_of_find_all_named.
  pose proof (get_output_raw _ _ _ _ _ _ _ Hwf Ht Hin Hne Hgq eq_refl) as Hout.
  rewrite (bool_decide_false (q = p0)) in Hout
    by (by apply (title_is_not_initializer soup)).
  rewrite (bool_decide_false (q = t)) in Hout by done.
  split; [apply elem_of_find_all_named; eauto|].
  rewrite Hout, Hgq. simpl. f_equal.
  exact (get_text_map_tags both_rewritten (Tag (lit "title") a cs)).
Qed.

Lemma other_titles_untouched_witness :
  ∃ soup',
    transform two_titles_soup = Ok soup'
    ∧ get_text <$> get [0; 1; 0; 0]%nat soup' = Some (lit "Logo").
Proof.
  destruct (other_titles_untouched two_titles_soup [0; 0; 0]%nat
              [0; 1; 1]%nat [0; 1; 0; 0]%nat)
    as (soup' & Hrun & _ & Htext).
  - vm_compute. reflexivity.
  - vm_compute. reflexivity.
  - vm_compute. reflexivity.
  - apply (bool_decide_unpack _). vm_compute. exact I.
  - discriminate.
  - exists soup'. split; [exact Hrun|]. rewrite Htext. vm_compute.
    reflexivity.
Defined.

(** ** The heuristics of is_initializer_script, read on the text *)

(** X11.  A tag passes [is_initializer_script] iff it is a [script]
    without a [src] attribute (present with any value, even empty,
    excludes it) whose text contains [window.onload], any white space and
    [=], and contains [SwaggerUIBundle], any white space and [(]; the two
    may come in either order and anywhere in the text. *)
Theorem initializer_script_markers tag :
  is_initializer_script tag = true ↔
  (∃ a cs, tag = Tag (lit "script") a cs ∧ a !! lit "src" = None)
  ∧ (∃ pre ws post,
       get_text tag = pre ++ lit "window.onload" ++ ws ++ 61 :: post
       ∧ Forall (λ c, isspace c = true) ws)
  ∧ (∃ pre ws post,
       get_text tag = pre ++ lit "SwaggerUIBundle" ++ ws ++ 40 :: post
       ∧ Forall (λ c, isspace c = true) ws).
Proof.
  split.
  - intros H. split; [by apply is_initializer_script_tag|].
    by apply initializer_script_text.
  - intros ((a & cs & -> & Hsrc) & H1 & H2).
    apply is_initializer_script_spec. split_and!.
    + done.
    + simpl. rewrite Hsrc. apply bool_decide_eq_false. by intros [? ?].
    + by apply re_search_marker.
    + by apply re_search_marker.
Qed.

(** ** parseQuery: when it throws, and what it records *)

Lemma parseQuery_loop_None pairs : ∀ query,
  parseQuery_loop pairs query = None ↔
  ∃ pair, pair ∈ pairs
          ∧ (decodeURIComponent (key_text pair) = None
             ∨ decodeURIComponent (second_segment pair) = None).
Proof.
  induction pairs as [|p pairs IH]; intros query.
  - split; [done|]. by intros (? & ?%elem_of_nil & _).
  - rewrite parseQuery_loop_cons.
    destruct (decodeURIComponent (key_text p)) as [k|] eqn:Hk; simpl;
      [|split; [intros _; exists p; split; [by left|by left]|done]].
    destruct (decodeURIComponent (second_segment p)) as [v|] eqn:Hv; simpl;
      [|split; [intros _; exists p; split; [by left|by right]|done]].
    rewrite IH. split.
    + intros (pair & Hin & H). exists pair. split; [by right|done].
    + intros (pair & [->|Hin]%elem_of_cons & H).
      * destruct H; congruence.
      * by exists pair.
Qed.

Lemma parseQuery_loop_dom pairs : ∀ query query' k,
  parseQuery_loop pairs query = Some query' →
  is_Some (query' !! k) ↔
  is_Some (query !! k)
  ∨ (k ≠ lit "__proto__"
     ∧ ∃ pair, pair ∈ pairs ∧ decodeURIComponent (key_text pair) = Some k).
Proof.
  induction pairs as [|p pairs IH]; intros query query' k.
  - intros [= <-]. split; [by left|].
    by intros [?|(_ & ? & ?%elem_of_nil & _)].
  - rewrite parseQuery_loop_cons. intros Hrun.
    destruct (decodeURIComponent (key_text p)) as [kp|] eqn:Hk; [|done].
    destruct (decodeURIComponent (second_segment p)) as [v|]; [|done].
    simpl in Hrun. rewrite (IH _ _ k Hrun), lookup_js_set.
    destruct (decide (kp = lit "__proto__")) as [Hp|Hp].
    + rewrite (bool_decide_true _ Hp). split.
      * intros [?|(Hne & pair & Hin & Hpair)]; [by left|].
        right. split; [done|]. exists pair. split; [by right|done].
      * intros [?|(Hne & pair & [->|Hin]%elem_of_cons & Hpair)];
          [by left|congruence|].
        right. split; [done|]. by exists pair.
    + rewrite (bool_decide_false _ Hp).
      destruct (decide (kp = k)) as [->|Hkp].
      * rewrite bool_decide_true by done. split; [|by left; eexists].
        intros _. right. split; [done|]. exists p. split; [by left|done].
      * rewrite (bool_decide_false _ Hkp). split.
        -- intros [?|(Hne & pair & Hin & Hpair)]; [by left|].
           right. split; [done|]. exists pair. split; [by right|done].
        -- intros [?|(Hne & pair & [->|Hin]%elem_of_cons & Hpair)];
             [by left|congruence|].
           right. split; [done|]. by exists pair.
Qed.

(** The entry of a key comes from the last pair that has it. *)
Lemma parseQuery_loop_records before pair after query0 query key :
  parseQuery_loop (before ++ pair :: after) query0 = Some query →
  decodeURIComponent (key_text pair) = Some key →
  key ≠ lit "__proto__" →
  (∀ p, p ∈ after → decodeURIComponent (key_text p) ≠ Some key) →
  ∃ value, decodeURIComponent (second_segment pair) = Some value
           ∧ query !! key = Some value.
Proof.
  intros Hrun Hkey Hproto Hlater. rewrite parseQuery_loop_app in Hrun.
  apply bind_Some in Hrun as (query1 & _ & Hrun).
  rewrite parseQuery_loop_cons, Hkey in Hrun. simpl in Hrun.
  destruct (decodeURIComponent (second_segment pair)) as [value|]; [|done].
  simpl in Hrun. exists value. split; [done|].
  rewrite (parseQuery_loop_other _ _ _ key Hrun Hlater), lookup_js_set.
  rewrite (bool_decide_false (key = lit "__proto__")) by done.
  by rewrite bool_decide_true.
Qed.

(** X12.  [parseQuery] throws iff the text before the first [=] of some
    pair, or the text between its first and second [=], is not a valid
    percent-encoding.  What follows a second [=] is never decoded, so a
    malformed escape there does not make it throw. *)
Theorem parseQuery_throws_iff queryString :
  parseQuery queryString = None ↔
  ∃ pair, pair ∈ query_pairs queryString
          ∧ (decodeURIComponent (key_text pair) = None
             ∨ decodeURIComponent (second_segment pair) = None).
Proof. apply parseQuery_loop_None. Qed.

(** X13.  The keys of the object [parseQuery] returns are exactly the
    decoded keys of the pairs, [__proto__] excepted: a pair can never set
    [__proto__], and nothing else is recorded. *)
Theorem parseQuery_keys queryString query :
  parseQuery queryString = Some query →
  query !! lit "__proto__" = None
  ∧ ∀ k, is_Some (query !! k) ↔
         k ≠ lit "__proto__"
         ∧ ∃ pair, pair ∈ query_pairs queryString
                   ∧ decodeURIComponent (key_text pair) = Some k.
Proof.
  intros Hrun.
  assert (∀ k, is_Some (query !! k) ↔
               k ≠ lit "__proto__"
               ∧ ∃ pair, pair ∈ query_pairs queryString
                         ∧ decodeURIComponent (key_text pair) = Some k) as H.
  { intros k. rewrite (parseQuery_loop_dom _ _ _ k Hrun), lookup_empty.
    split; [by intros [[? ?]|?]|by right]. }
  split; [|done]. apply eq_None_not_Some. by intros [? _]%H.
Qed.

Lemma parseQuery_keys_witness :
  ∃ query, parseQuery (lit "__proto__=x&a=1") = Some query
           ∧ query !! lit "__proto__" = None
           ∧ is_Some (query !! lit "a").
Proof.
  assert (parseQuery (lit "__proto__=x&a=1")
          = Some (default ∅ (parseQuery (lit "__proto__=x&a=1")))) as Hrun
    by (vm_compute; reflexivity).
  destruct (parseQuery_keys _ _ Hrun) as [Hproto Hkeys].
  eexists. split; [exact Hrun|]. split; [exact Hproto|].
  apply Hkeys. split; [discriminate|]. exists (lit "a=1").
  split; [|vm_compute; reflexivity].
  apply (bool_decide_unpack _). vm_compute. exact I.
Defined.

(** *** Query strings without a percent sign *)

Lemma decode_plain s : 37 ∉ s → decodeURIComponent s = Some s.
Proof.
  unfold decodeURIComponent. induction s as [|c s IH]; [done|].
  intros Hs. cbn [decode].
  destruct (N.eqb_spec c 37) as [->|Hc]; [by destruct Hs; left|].
  rewrite IH; [done|]. intros ?. apply Hs. by right.
Qed.

Lemma elem_of_split sep s w c : w ∈ split sep s → c ∈ w → c ∈ s.
Proof.
  revert w. induction s as [|x s IH]; intros w; simpl.
  - by intros ->%list_elem_of_singleton.
  - destruct (N.eqb_spec x sep) as [->|Hx].
    + intros [->|Hw]%elem_of_cons Hc; [by apply elem_of_nil in Hc|].
      right. by apply (IH w).
    + pose proof (split_nonempty sep s).
      destruct (split sep s) as [|w0 ws]; [done|].
      intros [->|Hw]%elem_of_cons Hc.
      * apply elem_of_cons in Hc as [->|Hc]; [by left|].
        right. apply (IH w0); [by left|done].
      * right. apply (IH w); [by right|done].
Qed.

Lemma elem_of_key_text pair c : c ∈ key_text pair → c ∈ pair.
Proof.
  induction pair as [|x s IH]; simpl; [done|].
  destruct (x =? 61); [by intros ?%elem_of_nil|].
  intros [->|?]%elem_of_cons; [by left|right; auto].
Qed.

Lemma elem_of_after_first_eq pair c : c ∈ after_first_eq pair → c ∈ pair.
Proof.
  induction pair as [|x s IH]; simpl; [done|].
  destruct (x =? 61); intros ?; right; auto.
Qed.

Lemma elem_of_query_pairs queryString pair c :
  pair ∈ query_pairs queryString → c ∈ pair → c ∈ queryString.
Proof.
  unfold query_pairs. intros Hpair Hc.
  pose proof (elem_of_split _ _ _ _ Hpair Hc) as H.
  destruct (bool_decide _); [|done]. destruct queryString; [done|].
  by right.
Qed.

(** X14.  On a query string without a percent sign [parseQuery] never
    throws and records the texts as they are: for a pair whose key is not
    [__proto__] and is not repeated by a later pair, the value of the key
    is the text between the first and the second [=] of the pair (a [+]
    stays a [+]). *)
Theorem parseQuery_plain queryString :
  37 ∉ queryString →
  ∃ query,
    parseQuery queryString = Some query
    ∧ ∀ before pair after,
        query_pairs queryString = before ++ pair :: after →
        key_text pair ≠ lit "__proto__" →
        (∀ p, p ∈ after → key_text p ≠ key_text pair) →
        query !! key_text pair = Some (second_segment pair).
Proof.
  intros Hplain.
  assert (∀ pair, pair ∈ query_pairs queryString →
            decodeURIComponent (key_text pair) = Some (key_text pair)
            ∧ decodeURIComponent (second_segment pair)
              = Some (second_segment pair)) as Hdec.
  { intros pair Hpair. split; apply decode_plain; intros Hc; apply Hplain.
    - apply (elem_of_query_pairs _ pair); [done|]. by apply elem_of_key_text.
    - apply (elem_of_query_pairs _ pair); [done|].
      by apply elem_of_after_first_eq, elem_of_key_text. }
  destruct (parseQuery queryString) as [query|] eqn:Hrun.
  - exists query. split; [done|]. intros before pair after Hpairs Hproto Hlater.
    assert (pair ∈ query_pairs queryString) as Hpair
      by (rewrite Hpairs; apply elem_of_app; right; by left).
    unfold parseQuery in Hrun. rewrite Hpairs in Hrun.
    destruct (parseQuery_loop_records _ _ _ _ _ (key_text pair) Hrun)
      as (value & Hvalue & Hrec).
    + by apply Hdec.
    + done.
    + intros p Hp.
      assert (p ∈ query_pairs queryString) as Hp'
        by (rewrite Hpairs; apply elem_of_app; right; by right).
      rewrite (proj1 (Hdec p Hp')). intros [= Heq]. by apply (Hlater p).
    + rewrite (proj2 (Hdec pair Hpair)) in Hvalue. congruence.
  - apply parseQuery_loop_None in Hrun as (pair & Hpair & [H|H]);
      destruct (Hdec pair Hpair); congruence.
Qed.

Lemma parseQuery_plain_witness :
  ∃ query, parseQuery (lit "?q=a+b=c&x") = Some query
           ∧ query !! lit "q" = Some (lit "a+b")
           ∧ query !! lit "x" = Some [].
Proof.
  destruct (parseQuery_plain (lit "?q=a+b=c&x")) as (query & Hrun & Hrec).
  - apply (bool_decide_unpack _). vm_compute. exact I.
  - exists query. split; [exact Hrun|]. split.
    + apply (Hrec [] (lit "q=a+b=c") [lit "x"]).
      * vm_compute. reflexivity.
      * discriminate.
      * intros p Hp. apply list_elem_of_In in Hp.
        destruct Hp as [<-|[]]. discriminate.
    + apply (Hrec [lit "q=a+b=c"] (lit "x") []).
      * vm_compute. reflexivity.
      * discriminate.
      * intros p Hp. by apply elem_of_nil in Hp.
Defined.

(** ** The list of sources of the handler *)

Lemma last_snoc_endpoint (l : list endpoint) x : last (l ++ [x]) = Some x.
Proof. apply last_snoc. Qed.

(** X15.  Whenever the handler gets past [parseQuery], the list it passes
    to [SwaggerUIBundle] ends with the production entry, has between one
    and three entries, and starts with the local entry iff the page was
    loaded over [file:]. *)
Theorem onload_urls_shape protocol search urls :
  onload protocol search = Some urls →
  last urls = Some production_endpoint
  ∧ (1 ≤ length urls ≤ 3)%nat
  ∧ (head urls = Some local_endpoint ↔ protocol = lit "file:").
Proof.
  unfold onload. intros (query & _ & [= <-])%bind_Some. unfold build_urls.
  destruct (decide (protocol = lit "file:")) as [Hp|Hp].
  - rewrite (bool_decide_true _ Hp).
    destruct (query !! lit "encircleUrl") as [v|]; simpl;
      (split_and!; [done|lia|lia|done]).
  - rewrite (bool_decide_false _ Hp).
    destruct (query !! lit "encircleUrl") as [v|]; simpl.
    + split_and!; [done|lia|lia|]. split; [|done].
      intros [= Hurl Hname]. rewrite Hurl in Hname. discriminate Hname.
    + split_and!; [done|lia|lia|]. split; [|done]. intros [=].
Qed.

Lemma onload_urls_shape_witness :
  last (default [] (onload (lit "file:") (lit "?encircleUrl=http://h/v3")))
  = Some production_endpoint.
Proof.
  refine (proj1 (onload_urls_shape (lit "file:")
                   (lit "?encircleUrl=http://h/v3") _ _)).
  vm_compute. reflexivity.
Defined.

(** X16.  When the query string has a pair whose decoded key is
    [encircleUrl], the last such pair gives the entry that comes just
    before the production entry: its [url] and its [name] are both the
    decoded text between the first and the second [=] of the pair.  A
    value that itself contains [=] is cut there, and a pair without a
    value still adds an entry, with an empty [url]. *)
Theorem onload_query_entry protocol search query before pair after :
  parseQuery search = Some query →
  query_pairs search = before ++ pair :: after →
  decodeURIComponent (key_text pair) = Some (lit "encircleUrl") →
  (∀ p, p ∈ after →
        decodeURIComponent (key_text p) ≠ Some (lit "encircleUrl")) →
  ∃ v, decodeURIComponent (second_segment pair) = Some v
       ∧ onload protocol search
         = Some ((if bool_decide (protocol = lit "file:")
                  then [local_endpoint] else [])
                 ++ [{| url := v; name := v |}; production_endpoint]).
Proof.
  intros Hrun Hpairs Hkey Hlater. pose proof Hrun as Hrun'.
  unfold parseQuery in Hrun'. rewrite Hpairs in Hrun'.
  destruct (parseQuery_loop_records _ _ _ _ _ _ Hrun' Hkey) as (v & Hv & Hrec);
    [done|done|].
  exists v. split; [done|]. unfold onload. rewrite Hrun. simpl.
  unfold build_urls. rewrite Hrec. by destruct (bool_decide _).
Qed.

Lemma onload_query_entry_witness :
  onload (lit "https:") (lit "?encircleUrl=http://h/v3?a=b")
  = Some [{| url := lit "http://h/v3?a"; name := lit "http://h/v3?a" |};
          production_endpoint]
  ∧ onload (lit "https:") (lit "?encircleUrl")
    = Some [{| url := []; name := [] |}; production_endpoint].
Proof.
  split.
  - destruct (onload_query_entry (lit "https:")
                (lit "?encircleUrl=http://h/v3?a=b")
                (default ∅ (parseQuery (lit "?encircleUrl=http://h/v3?a=b")))
                [] (lit "encircleUrl=http://h/v3?a=b") [])
      as (v & Hv & Hurls).
    + vm_compute. reflexivity.
    + vm_compute. reflexivity.
    + vm_compute. reflexivity.
    + intros p Hp. by apply elem_of_nil in Hp.
    + rewrite Hurls. vm_compute in Hv. injection Hv as <-. reflexivity.
  - destruct (onload_query_entry (lit "https:") (lit "?encircleUrl")
                (default ∅ (parseQuery (lit "?encircleUrl")))
                [] (lit "encircleUrl") [])
      as (v & Hv & Hurls).
    + vm_compute. reflexivity.
    + vm_compute. reflexivity.
    + vm_compute. reflexivity.
    + intros p Hp. by apply elem_of_nil in Hp.
    + rewrite Hurls. vm_compute in Hv. injection Hv as <-. reflexivity.
Defined.

(** X17.  When no pair of the query string has the decoded key
    [encircleUrl], the list holds the production entry, after the local
    one over [file:], and nothing else. *)
Theorem onload_without_query_entry protocol search query :
  parseQuery search = Some query →
  (∀ pair, pair ∈ query_pairs search →
           decodeURIComponent (key_text pair) ≠ Some (lit "encircleUrl")) →
  onload protocol search
  = Some ((if bool_decide (protocol = lit "file:")
           then [local_endpoint] else [])
          ++ [production_endpoint]).
Proof.
  intros Hrun Hnone. unfold onload. rewrite Hrun. simpl. unfold build_urls.
  assert (query !! lit "encircleUrl" = None) as ->.
  { apply eq_None_not_Some. intros H.
    apply (parseQuery_loop_dom _ _ _ _ Hrun) in H
      as [H|(_ & pair & Hpair & Hkey)].
    - rewrite lookup_empty in H. by destruct H.
    - by apply (Hnone pair). }
  by destruct (bool_decide _).
Qed.

Lemma onload_without_query_entry_witness :
  onload (lit "file:") (lit "?url=x")
  = Some [local_endpoint; production_endpoint].
Proof.
  apply (onload_without_query_entry (lit "file:") (lit "?url=x")
           (default ∅ (parseQuery (lit "?url=x")))).
  - vm_compute. reflexivity.
  - intros pair Hpair. apply list_elem_of_In in Hpair. vm_compute in Hpair.
    destruct Hpair as [<-|[]]. vm_compute. discriminate.
Defined.

(** ** find_all lists the tags in document order *)

Lemma path_le_antisym p : ∀ q,
  path_le p q = true → path_le q p = true → p = q.
Proof.
  induction p as [|i p IH]; intros [|j q]; simpl; try done.
  intros [Hij|[Hij Hpq]%andb_true_iff]%orb_true_iff
         [Hji|[Hji Hqp]%andb_true_iff]%orb_true_iff;
    rewrite ?Nat.ltb_lt, ?Nat.eqb_eq in *; try lia.
  subst. f_equal. by apply IH.
Qed.

Lemma find_children_sorted F cs :
  Forall (λ c, StronglySorted document_order (F c)) cs →
  ∀ i, StronglySorted document_order (find_children F i cs).
Proof.
  induction 1 as [|c cs Hc _ IH]; intros i; simpl; [constructor|].
  apply StronglySorted_app_2.
  - intros p q (p' & -> & _)%list_elem_of_fmap
      (j & c' & q' & _ & _ & ->)%elem_of_find_children.
    unfold document_order. simpl. apply orb_true_iff. left.
    apply Nat.ltb_lt. lia.
  - apply (StronglySorted_fmap _ document_order); [|done].
    intros x y Hxy. unfold document_order in *. simpl.
    by rewrite Nat.ltb_irrefl, Nat.eqb_refl.
  - apply IH.
Qed.

Lemma find_self_sorted matches e :
  StronglySorted document_order (find_self matches e).
Proof.
  induction e as [n a cs IH|s|s] using PageElement_ind'; [|constructor..].
  cbn [find_self]. apply StronglySorted_app_2.
  - intros p q Hp _. destruct (matches _); [|by apply elem_of_nil in Hp].
    by apply list_elem_of_singleton in Hp as ->.
  - destruct (matches _); repeat constructor.
  - by apply find_children_sorted.
Qed.

Lemma find_all_sorted matches e :
  StronglySorted document_order (find_all matches e).
Proof.
  destruct e as [n a cs|s|s]; [|constructor..].
  apply find_children_sorted, Forall_forall. intros; apply find_self_sorted.
Qed.

(** Two searches that find the same references return the same list. *)
Lemma find_all_eq matches matches' e e' :
  (∀ p, p ∈ find_all matches e ↔ p ∈ find_all matches' e') →
  find_all matches e = find_all matches' e'.
Proof.
  intros H. apply (StronglySorted_unique_strong document_order).
  - intros p q _ _. apply path_le_antisym.
  - apply find_all_sorted.
  - apply find_all_sorted.
  - apply NoDup_Permutation; auto using NoDup_find_all.
Qed.

(** ** The output of a run as the input of another *)

Lemma get_update_set_string_tag p v e q n a cs :
  get q (update p (set_string v) e) = Some (Tag n a cs) →
  ∃ cs0, get q e = Some (Tag n a cs0).
Proof.
  rewrite get_update. destruct (path_rel q p) as [r|r|] eqn:Hrel.
  - destruct (get q e) as [y|]; [|done]. simpl. intros [= Hy].
    destruct r, y; simpl in Hy; try done; injection Hy as -> -> _; eauto.
  - apply path_rel_Below in Hrel as [_ Hr]. destruct r as [|i r]; [done|].
    destruct (get p e) as [[n0 a0 cs0|s|s]|]; simpl; try done.
    destruct i; simpl; [|done]. by destruct r.
  - eauto.
Qed.

Lemma map_tags_tag_inv G x n a' cs' :
  map_tags G x = Tag n a' cs' → ∃ a cs, x = Tag n a cs.
Proof. destruct x; simpl; [|done..]. intros [= <- _ _]. eauto. Qed.

Lemma get_output_tag_inv soup t p0 q n a' cs' :
  q ≠ [] →
  get q (update p0 (set_string initializer_template)
           (before_initializer t soup)) = Some (Tag n a' cs') →
  ∃ a cs, get q soup = Some (Tag n a cs).
Proof.
  intros Hq (cs1 & Hb)%get_update_set_string_tag.
  rewrite get_before_initializer in Hb by done.
  destruct (get q (update t _ soup)) as [x|] eqn:Hx; [|done].
  injection Hb as (a & cs & ->)%map_tags_tag_inv.
  apply get_update_set_string_tag in Hx as [cs0 Hx]. eauto.
Qed.

Section output.
Variables (soup : PageElement) (t p0 : path).
Hypothesis Hwf : raw_text_elements soup = true.
Hypothesis Ht : t ∈ find_all (named (lit "title")) soup.
Hypothesis Hp0 : p0 ∈ find_all is_initializer_script soup.

Let soup' : PageElement :=
  update p0 (set_string initializer_template) (before_initializer t soup).

Lemma output_tags_iff q n :
  q ≠ [] →
  (∃ a cs, get q soup' = Some (Tag n a cs))
  ↔ (∃ a cs, get q soup = Some (Tag n a cs)).
Proof.
  intros Hq. split.
  - intros (a & cs & H). by apply get_output_tag_inv in H.
  - intros (a & cs & H).
    destruct (get_output_tag _ _ _ _ _ _ _ Hwf Ht Hp0 Hq H) as [cs' ?]. eauto.
Qed.

Lemma find_all_named_output n :
  find_all (named n) soup' = find_all (named n) soup.
Proof.
  apply find_all_eq. intros p. rewrite !elem_of_find_all_named.
  split; intros [Hp H]; (split; [done|]); by apply output_tags_iff.
Qed.

Lemma head_title_output : head_title soup' = head_title soup.
Proof.
  unfold head_title, find. rewrite find_all_named_output.
  destruct (head (find_all (named (lit "head")) soup)) as [hp|] eqn:Hhp;
    [|done].
  apply head_Some_elem_of, elem_of_find_all_named in Hhp
    as (Hne & a & cs & Hget).
  destruct (get_output_tag _ _ _ _ _ _ _ Hwf Ht Hp0 Hne Hget) as [cs' Hget'].
  fold soup' in Hget'. cbn [mbind option_bind]. rewrite Hget, Hget'.
  cbn [mbind option_bind]. do 2 f_equal. apply find_all_eq. intros tp.
  rewrite !elem_of_find_all_named.
  assert (∀ n', (∃ a1 cs1, get tp (Tag (lit "head") (both_rewritten (lit "head") a) cs')
                           = Some (Tag n' a1 cs1))
                ↔ tp = [] ∧ n' = lit "head"
                  ∨ tp ≠ [] ∧ ∃ a1 cs1, get (hp ++ tp) soup'
                                        = Some (Tag n' a1 cs1)) as H1.
  { intros n'. rewrite get_app, Hget'. simpl. destruct tp as [|i tp].
    - split; [intros (? & ? & [= -> _ _]); by left|].
      intros [[_ ->]|[? _]]; [eauto|done].
    - split; [by right|]. by intros [[? _]|[_ ?]]. }
  assert (∀ n', (∃ a1 cs1, get tp (Tag (lit "head") a cs)
                           = Some (Tag n' a1 cs1))
                ↔ tp = [] ∧ n' = lit "head"
                  ∨ tp ≠ [] ∧ ∃ a1 cs1, get (hp ++ tp) soup
                                        = Some (Tag n' a1 cs1)) as H2.
  { intros n'. rewrite get_app, Hget. simpl. destruct tp as [|i tp].
    - split; [intros (? & ? & [= -> _ _]); by left|].
      intros [[_ ->]|[? _]]; [eauto|done].
    - split; [by right|]. by intros [[? _]|[_ ?]]. }
  rewrite H1, H2. split.
  - intros [Hne' [[? _]|[_ H]]]; [done|]. split; [done|]. right.
    split; [done|]. apply output_tags_iff in H; [done|by destruct hp].
  - intros [Hne' [[? _]|[_ H]]]; [done|]. split; [done|]. right.
    split; [done|]. apply output_tags_iff; [by destruct hp|done].
Qed.
End output.

Lemma raw_text_elements_children e :
  (∀ q n a cs i x,
     get q e = Some (Tag n a cs) → raw_text n = true →
     get (q ++ [i]) e = Some x → is_tag x = false) →
  raw_text_elements e = true.
Proof.
  induction e as [n a cs IH|s|s] using PageElement_ind'; [|done..].
  intros H. simpl. apply andb_true_iff. split.
  - destruct (raw_text n) eqn:Hn; [|done]. apply forallb_forall.
    intros c [i Hc]%list_elem_of_In%list_elem_of_lookup.
    apply negb_true_iff. apply (H [] n a cs i c eq_refl Hn). simpl.
    by rewrite Hc.
  - apply forallb_forall.
    intros c Hin. pose proof Hin as [j Hc]%list_elem_of_In%list_elem_of_lookup.
    rewrite Forall_forall in IH. apply IH; [by apply list_elem_of_In|].
    intros q n' a' cs' i x Hq Hn' Hx. apply (H (j :: q) n' a' cs' i x).
    + simpl. by rewrite Hc.
    + done.
    + simpl. by rewrite Hc.
Qed.

Lemma rewritten_other_name name attr n a :
  n ≠ name → rewritten name attr n a = a.
Proof.
  intros Hn. unfold rewritten. destruct (a !! attr); [|done].
  by rewrite (bool_decide_false _ Hn).
Qed.

Lemma rewritten_absent name attr n a :
  a !! attr = None → rewritten name attr n a = a.
Proof. intros Ha. unfold rewritten. by rewrite Ha. Qed.

(** The template passes the heuristics that found the script it
    replaces. *)
Lemma initializer_template_matches a :
  a !! lit "src" = None →
  is_initializer_script
    (Tag (lit "script") a [NavigableString initializer_template]) = true.
Proof.
  intros Ha. apply is_initializer_script_spec. split_and!.
  - done.
  - simpl. rewrite Ha. apply bool_decide_eq_false. by intros [? ?].
  - apply re_search_marker.
    exists (take 1 initializer_template), [32], (drop 16 initializer_template).
    split; [vm_compute; reflexivity|by repeat constructor].
  - apply re_search_marker.
    exists (take 959 initializer_template), [],
      (drop 975 initializer_template).
    split; [vm_compute; reflexivity|constructor].
Qed.

Section output_again.
Variables (soup : PageElement) (t p0 : path).
Hypothesis Hwf : raw_text_elements soup = true.
Hypothesis Ht : t ∈ find_all (named (lit "title")) soup.
Hypothesis Hp0 : p0 ∈ find_all is_initializer_script soup.

Let soup' : PageElement :=
  update p0 (set_string initializer_template) (before_initializer t soup).

Lemma output_root : tag_name soup' = tag_name soup.
Proof.
  apply elem_of_find_all in Hp0 as (Hne & _).
  apply elem_of_find_all_named in Ht as (Hne' & _).
  unfold soup', before_initializer.
  destruct p0 as [|i p]; [done|]. destruct t as [|j t']; [done|].
  by destruct soup.
Qed.

Lemma raw_text_elements_output : raw_text_elements soup' = true.
Proof.
  apply raw_text_elements_children. intros q n a cs i x Hq Hn Hx.
  destruct (is_tag x) eqn:Htag; [|done]. destruct x as [n2 a2 cs2|s|s]; try done.
  apply get_output_tag_inv in Hx as (a2' & cs2' & Hx); [|by destruct q].
  destruct q as [|k q].
  - simpl in Hq. pose proof output_root as Hroot. fold soup' in Hq.
    injection Hq as Hq. rewrite Hq in Hroot.
    destruct soup as [n0 a0 cs0|s|s] eqn:Hsoup; try done.
    injection Hroot as <-.
    by pose proof (raw_text_below (Tag n a0 cs0) [] n a0 cs0 i [] _ Hwf
                     eq_refl Hn Hx).
  - apply get_output_tag_inv in Hq as (a' & cs' & Hq); [|done].
    by pose proof (raw_text_below _ _ _ _ _ _ [] _ Hwf Hq Hn Hx).
Qed.

End output_again.

Lemma init_scripts_output soup t p0 :
  raw_text_elements soup = true →
  t ∈ find_all (named (lit "title")) soup →
  find_all is_initializer_script soup = [p0] →
  find_all is_initializer_script
    (update p0 (set_string initializer_template) (before_initializer t soup))
  = [p0].
Proof.
  intros Hwf Ht Hone. rewrite <- Hone. apply find_all_eq. intros p.
  assert (p0 ∈ find_all is_initializer_script soup) as Hp0
    by (rewrite Hone; by apply list_elem_of_singleton).
  pose proof Hp0 as (Hne & x0 & Hx0 & _ & Hinit0)%elem_of_find_all.
  apply is_initializer_script_tag in Hinit0 as (a0 & cs0 & -> & Hsrc).
  split.
  - intros (Hp & x & Hx & Htag & Hinit)%elem_of_find_all.
    pose proof Hinit as (a' & cs' & -> & _)%is_initializer_script_tag.
    pose proof Hx as (a & cs & Hg)%get_output_tag_inv; [|done].
    destruct (decide (p = p0)) as [->|Hpp]; [done|].
    pose proof (get_output_raw _ _ _ _ _ _ _ Hwf Ht Hp0 Hp Hg eq_refl) as Hout.
    rewrite (bool_decide_false _ Hpp) in Hout.
    rewrite bool_decide_false in Hout; last first.
    { intros ->. apply elem_of_find_all_named in Ht as (_ & ? & ? & Ht').
      rewrite Ht' in Hg. injection Hg as Hn _ _. by vm_compute in Hn. }
    rewrite Hout in Hx. injection Hx as Ha Hcs.
    apply elem_of_find_all. split; [done|]. eexists. split; [done|].
    split; [done|].
    rewrite <- (is_initializer_script_map_tags (Tag (lit "script") a cs)).
    simpl. by rewrite Ha, Hcs.
  - rewrite Hone. intros ->%list_elem_of_singleton.
    pose proof (get_output_raw _ _ _ _ _ _ _ Hwf Ht Hp0 Hne Hx0 eq_refl)
      as Hout.
    rewrite bool_decide_true in Hout by done.
    apply elem_of_find_all. split; [done|]. eexists. split; [done|].
    split; [done|]. apply initializer_template_matches.
    apply eq_None_not_Some.
    intros H%(is_Some_lookup_rewritten (lit "script") (lit "src"))
             %(is_Some_lookup_rewritten (lit "link") (lit "href")).
    rewrite Hsrc in H. by destruct H.
Qed.

(** X18.  The tree a completed run hands to [prettify] meets the
    conditions of a run again: its [script] and [title] elements hold only
    text, every element is at the place it had under its name,
    [soup.head.title] designates the same title, and the only initializer
    script is the one that was replaced, since the template passes the
    heuristics that found it.  (The document is one whose [script] and
    [title] elements hold only text.) *)
Theorem output_rerunnable soup soup' :
  raw_text_elements soup = true →
  transform soup = Ok soup' →
  raw_text_elements soup' = true
  ∧ (∀ n, find_all (named n) soup' = find_all (named n) soup)
  ∧ head_title soup' = head_title soup
  ∧ find_all is_initializer_script soup'
    = find_all is_initializer_script soup.
Proof.
  intros Hwf (t & p0 & Ht & Hone & ->)%transform_Ok_inv; [|done].
  pose proof (head_title_spec _ _ Ht) as Ht'.
  assert (p0 ∈ find_all is_initializer_script soup) as Hp0
    by (rewrite Hone; by apply list_elem_of_singleton).
  split_and!.
  - exact (raw_text_elements_output soup t p0 Hwf Ht' Hp0).
  - intros n. exact (find_all_named_output soup t p0 Hwf Ht' Hp0 n).
  - exact (head_title_output soup t p0 Hwf Ht' Hp0).
  - rewrite Hone. exact (init_scripts_output soup t p0 Hwf Ht' Hone).
Qed.

Lemma output_rerunnable_witness :
  ∃ soup', transform sample_soup = Ok soup'
           ∧ head_title soup' = Some [1; 0; 0]%nat
           ∧ find_all is_initializer_script soup' = [[1; 1; 3]%nat].
Proof.
  assert (raw_text_elements sample_soup = true) as Hwf
    by (vm_compute; reflexivity).
  destruct (transform sample_soup) as [soup'|e] eqn:Hrun;
    [|vm_compute in Hrun; discriminate Hrun].
  destruct (output_rerunnable sample_soup soup' Hwf Hrun)
    as (_ & _ & Htitle & Hinit).
  exists soup'. rewrite Htitle, Hinit.
  split; [reflexivity|]. split; vm_compute; reflexivity.
Defined.

(** X19.  For a document whose [script] and [title] elements hold only
    text: running the script on its own output completes, leaves the
    title and the initializer exactly as the first run made them, and
    prefixes the relative links and scripts a second time: a [link] whose
    [href], or a [script] whose [src], was [./rest] has
    [./node_modules/swagger-ui-dist/rest] after one run and
    [./node_modules/swagger-ui-dist/node_modules/swagger-ui-dist/rest]
    after two. *)
Theorem rerun_on_output soup soup' t p0 :
  raw_text_elements soup = true →
  head_title soup = Some t →
  find_all is_initializer_script soup = [p0] →
  transform soup = Ok soup' →
  ∃ soup'',
    transform soup' = Ok soup''
    ∧ get t soup'' = get t soup'
    ∧ get p0 soup'' = get p0 soup'
    ∧ ∀ q tag attr rest,
        (tag = lit "link" ∧ attr = lit "href")
        ∨ (tag = lit "script" ∧ attr = lit "src") →
        q ∈ find_all (named tag) soup →
        attr_at q attr soup = Some (lit "./" ++ rest) →
        attr_at q attr soup'
        = Some (lit "./node_modules/swagger-ui-dist/" ++ rest)
        ∧ attr_at q attr soup''
          = Some (lit "./node_modules/swagger-ui-dist/node_modules/swagger-ui-dist/"
                    ++ rest).
Proof.
  intros Hwf Ht Hone Hrun.
  rewrite (transform_result _ _ Hwf Ht), Hone in Hrun. injection Hrun as <-.
  pose proof (head_title_spec _ _ Ht) as Ht'.
  assert (p0 ∈ find_all is_initializer_script soup) as Hp0
    by (rewrite Hone; by apply list_elem_of_singleton).
  set (soup' := update p0 (set_string initializer_template)
                  (before_initializer t soup)).
  assert (raw_text_elements soup' = true) as Hwf'
    by exact (raw_text_elements_output soup t p0 Hwf Ht' Hp0).
  assert (head_title soup' = Some t) as Htitle
    by exact (eq_trans (head_title_output soup t p0 Hwf Ht' Hp0) Ht).
  assert (find_all is_initializer_script soup' = [p0]) as Hone'
    by exact (init_scripts_output soup t p0 Hwf Ht' Hone).
  pose proof (head_title_spec _ _ Htitle) as Ht''.
  assert (p0 ∈ find_all is_initializer_script soup') as Hp0'
    by (rewrite Hone'; by apply list_elem_of_singleton).
  eexists. split; [by rewrite (transform_result _ _ Hwf' Htitle), Hone'|].
  pose proof Ht' as (Hnet & at0 & ct0 & Hgt)%elem_of_find_all_named.
  pose proof Hp0 as (Hnep & x0 & Hx0 & _ & Hinit0)%elem_of_find_all.
  apply is_initializer_script_tag in Hinit0 as (a0 & cs0 & -> & Hsrc).
  split_and!.
  - pose proof (get_output_raw _ _ _ _ _ _ _ Hwf Ht' Hp0 Hnet Hgt eq_refl)
      as H1.
    fold soup' in H1.
    rewrite bool_decide_false in H1
      by (by apply (title_is_not_initializer soup)).
    rewrite bool_decide_true in H1 by done.
    pose proof (get_output_raw _ _ _ _ _ _ _ Hwf' Ht'' Hp0' Hnet H1 eq_refl)
      as H2.
    rewrite bool_decide_false in H2
      by (by apply (title_is_not_initializer soup)).
    rewrite bool_decide_true in H2 by done.
    rewrite H1, H2. unfold both_rewritten.
    by rewrite !(rewritten_other_name _ _ (lit "title")).
  - pose proof (get_output_raw _ _ _ _ _ _ _ Hwf Ht' Hp0 Hnep Hx0 eq_refl)
      as H1.
    fold soup' in H1. rewrite bool_decide_true in H1 by done.
    pose proof (get_output_raw _ _ _ _ _ _ _ Hwf' Ht'' Hp0' Hnep H1 eq_refl)
      as H2.
    rewrite bool_decide_true in H2 by done.
    rewrite H1, H2. unfold both_rewritten.
    rewrite !(rewritten_other_name (lit "link") _ (lit "script")) by done.
    by rewrite !(rewritten_absent _ _ _ _ Hsrc).
  - intros q tag attr rest Hkind (Hq & a & cs & Hgq)%elem_of_find_all_named Hv.
    unfold attr_at in Hv. rewrite Hgq in Hv.
    destruct (get_output_tag _ _ _ _ _ _ _ Hwf Ht' Hp0 Hq Hgq) as [cs1 H1].
    fold soup' in H1.
    destruct (get_output_tag _ _ _ _ _ _ _ Hwf' Ht'' Hp0' Hq H1) as [cs2 H2].
    unfold attr_at. rewrite H1, H2.
    destruct Hkind as [[-> ->]|[-> ->]].
    + rewrite !both_rewritten_link, Hv. by rewrite bool_decide_true by done.
    + rewrite !both_rewritten_script, Hv. by rewrite bool_decide_true by done.
Qed.

Lemma rerun_on_output_witness :
  ∃ soup' soup'',
    transform sample_soup = Ok soup'
    ∧ transform soup' = Ok soup''
    ∧ attr_at [1; 0; 1]%nat (lit "href") soup''
      = Some (lit "./node_modules/swagger-ui-dist/node_modules/swagger-ui-dist/swagger-ui.css").
Proof.
  assert (raw_text_elements sample_soup = true) as Hwf
    by (vm_compute; reflexivity).
  assert (head_title sample_soup = Some [1; 0; 0]%nat) as Ht
    by (vm_compute; reflexivity).
  assert (find_all is_initializer_script sample_soup = [[1; 1; 3]%nat])
    as Hone by (vm_compute; reflexivity).
  destruct (transform sample_soup) as [soup'|e] eqn:Hrun;
    [|vm_compute in Hrun; discriminate Hrun].
  destruct (rerun_on_output sample_soup soup' [1; 0; 0]%nat [1; 1; 3]%nat
              Hwf Ht Hone Hrun)
    as (soup'' & Hrun' & _ & _ & Hlinks).
  exists soup', soup''. split; [reflexivity|]. split; [exact Hrun'|].
  apply (Hlinks [1; 0; 1]%nat (lit "link") (lit "href") (lit "swagger-ui.css")).
  - left. split; reflexivity.
  - apply (bool_decide_unpack _). vm_compute. exact I.
  - vm_compute. reflexivity.
Defined.
